(** * Verification of the JJS job system (Discreet-Signals/JJS)

    Shallow embedding of [Source/ScopeTrackedFunctions.h], [Source/Job.h],
    [Source/LockFreeFifo.h] and [Source/JobSystem.h]. *)

From Stdlib Require Import Arith Lia List Bool ZArith Permutation.
Import ListNotations.

(** ** Finite maps as total functions with point update *)
Definition upd {X : Type} (m : nat -> X) (k : nat) (v : X) : nat -> X :=
  fun k' => if k' =? k then v else m k'.

(** ** ScopeTrackedFunctions.h *)
Module ScopeTrackedFunctions.

(** Scopes and containers are identified by their addresses (here: [nat]);
    a [std::function] is identified by a label. A [ScopedFunction] is the
    pair (recorded container, function). *)
Definition ScopedFunction : Type := (nat * nat)%type.

(** The heap of all scopes and containers:
    - [scopes c]        : the [scopes] vector of container [c];
    - [containers s]    : the [containers] vector of scope [s];
    - [scopedFunctions s] : the [scopedFunctions] vector of scope [s]. *)
Record Heap := mkHeap {
  scopes : nat -> list nat;
  containers : nat -> list nat;
  scopedFunctions : nat -> list ScopedFunction
}.

Definition empty_heap : Heap :=
  mkHeap (fun _ => []) (fun _ => []) (fun _ => []).

(** [ScopedFunctionContainer::addFunctionToScope] *)
Definition addFunctionToScope (c s f : nat) (h : Heap) : Heap :=
  mkHeap (scopes h) (containers h)
         (upd (scopedFunctions h) s (scopedFunctions h s ++ [(c, f)])).

(** [ScopedFunctionContainer::registerContainerToScope]: [std::find] then
    two [push_back]s when the scope is not found. *)
Definition registerContainerToScope (c s : nat) (h : Heap) : Heap :=
  if existsb (Nat.eqb s) (scopes h c) then h
  else mkHeap (upd (scopes h) c (scopes h c ++ [s]))
              (upd (containers h) s (containers h s ++ [c]))
              (scopedFunctions h).

(** [ScopedFunctionContainer::add] *)
Definition add (c s f : nat) (h : Heap) : Heap :=
  registerContainerToScope c s (addFunctionToScope c s f h).

(** [ScopedFunctionContainer::remove]: erase/remove_if of every [s == scope]. *)
Definition remove (c s : nat) (h : Heap) : Heap :=
  mkHeap (upd (scopes h) c (filter (fun x => negb (x =? s)) (scopes h c)))
         (containers h) (scopedFunctions h).

(** [FunctionScope::~FunctionScope]: the body calls [remove(this)] on every
    recorded container; then the members [containers] and [scopedFunctions]
    are destroyed (the storage of [s] is gone; a later scope at the same
    address starts with empty vectors). *)
Definition destroyScope (s : nat) (h : Heap) : Heap :=
  let h' := fold_left (fun h c => remove c s h) (containers h s) h in
  mkHeap (scopes h') (upd (containers h') s []) (upd (scopedFunctions h') s []).

(** [ScopedFunctionContainer::triggerFunctions(args...)]: for each scope of
    the container, for each scoped function of that scope, call it when its
    recorded container is this one. The result is the list of calls made:
    (scope, function, arguments). *)
Definition triggerFunctions {A : Type} (c : nat) (args : A) (h : Heap)
  : list (nat * nat * A) :=
  flat_map (fun s =>
    flat_map (fun sf : ScopedFunction =>
      if fst sf =? c then [(s, snd sf, args)] else [])
      (scopedFunctions h s))
    (scopes h c).

(** Operations of the application on the registry. *)
Inductive op :=
| Add (c s f : nat)
| Destroy (s : nat).

Definition step (h : Heap) (o : op) : Heap :=
  match o with
  | Add c s f => add c s f h
  | Destroy s => destroyScope s h
  end.

Definition run (ops : list op) : Heap := fold_left step ops empty_heap.

(** The callbacks that the history of operations has registered with
    container [c] and not revoked: each [add] on [c] records one, each
    destruction of a scope revokes all of that scope's. *)
Definition hist_step (c : nat) (l : list (nat * nat)) (o : op) : list (nat * nat) :=
  match o with
  | Add c' s f => if c' =? c then l ++ [(s, f)] else l
  | Destroy s => filter (fun sf => negb (fst sf =? s)) l
  end.

Definition hist (c : nat) (ops : list op) : list (nat * nat) :=
  fold_left (hist_step c) ops [].

End ScopeTrackedFunctions.

(** ** LockFreeFifo.h over [juce::AbstractFifo]

    [juce::AbstractFifo] is JUCE's index manager for a ring buffer of
    [bufferSize] slots: [validStart] is the next slot to read, [validEnd]
    the next slot to write; one slot is always left free, so it holds at
    most [bufferSize - 1] items. The functions below follow JUCE's
    [prepareToWrite], [finishedWrite], [prepareToRead], [finishedRead],
    [getNumReady] and [reset] ([int] arithmetic, as [Z]). *)
Module LockFreeFifo.

Record AbstractFifo := mkAbstractFifo {
  bufferSize : Z;
  validStart : Z;
  validEnd : Z
}.

Definition getNumReady (f : AbstractFifo) : Z :=
  let vs := validStart f in let ve := validEnd f in
  if (ve >=? vs)%Z then (ve - vs)%Z else (bufferSize f - (vs - ve))%Z.

(** Result: (startIndex1, blockSize1, startIndex2, blockSize2). *)
Definition prepareToWrite (numToWrite : Z) (f : AbstractFifo) : Z * Z * Z * Z :=
  let vs := validStart f in let ve := validEnd f in
  let freeSpace := if (ve >=? vs)%Z then (bufferSize f - (ve - vs))%Z else (vs - ve)%Z in
  let n := Z.min numToWrite (freeSpace - 1) in
  if (n <=? 0)%Z then (0, 0, 0, 0)%Z
  else
    let blockSize1 := Z.min (bufferSize f - ve) n in
    let n' := (n - blockSize1)%Z in
    (ve, blockSize1, 0%Z, if (n' <=? 0)%Z then 0%Z else Z.min n' vs).

Definition finishedWrite (numWritten : Z) (f : AbstractFifo) : AbstractFifo :=
  let newEnd := (validEnd f + numWritten)%Z in
  let newEnd := if (newEnd >=? bufferSize f)%Z then (newEnd - bufferSize f)%Z else newEnd in
  mkAbstractFifo (bufferSize f) (validStart f) newEnd.

Definition prepareToRead (numWanted : Z) (f : AbstractFifo) : Z * Z * Z * Z :=
  let vs := validStart f in let ve := validEnd f in
  let numReady := if (ve >=? vs)%Z then (ve - vs)%Z else (bufferSize f - (vs - ve))%Z in
  let n := Z.min numWanted numReady in
  if (n <=? 0)%Z then (0, 0, 0, 0)%Z
  else
    let blockSize1 := Z.min (bufferSize f - vs) n in
    let n' := (n - blockSize1)%Z in
    (vs, blockSize1, 0%Z, if (n' <=? 0)%Z then 0%Z else Z.min n' ve).

Definition finishedRead (numRead : Z) (f : AbstractFifo) : AbstractFifo :=
  let newStart := (validStart f + numRead)%Z in
  let newStart := if (newStart >=? bufferSize f)%Z then (newStart - bufferSize f)%Z else newStart in
  mkAbstractFifo (bufferSize f) newStart (validEnd f).

Definition reset (f : AbstractFifo) : AbstractFifo := mkAbstractFifo (bufferSize f) 0 0.

(** [std::vector::operator[]] assignment, in range. *)
Fixpoint replace_nth {T} (n : nat) (x : T) (l : list T) : list T :=
  match l, n with
  | [], _ => []
  | _ :: l', O => x :: l'
  | y :: l', S n' => y :: replace_nth n' x l'
  end.

Section Fifo.
Context {T : Type}.
(** [empty] is the value [return nullptr;] converts to ([nullptr] for a
    [std::unique_ptr], an empty [std::function]); it is also the state a
    slot is left in after [std::move] out of it. *)
Variable empty : T.

Record LockFreeFifo := mkLockFreeFifo {
  fifo : AbstractFifo;
  buffer : list T
}.

(** [LockFreeFifo(int size) : fifo(size), buffer(size)] *)
Definition make (size : Z) : LockFreeFifo :=
  mkLockFreeFifo (mkAbstractFifo size 0 0) (repeat empty (Z.to_nat size)).

Definition push (item : T) (q : LockFreeFifo) : bool * LockFreeFifo :=
  let '(start1, size1, start2, size2) := prepareToWrite 1 (fifo q) in
  if (size1 + size2 <=? 0)%Z then (false, q)
  else (true, mkLockFreeFifo (finishedWrite 1 (fifo q))
                             (replace_nth (Z.to_nat start1) item (buffer q))).

Definition pop (q : LockFreeFifo) : T * LockFreeFifo :=
  let '(start1, size1, start2, size2) := prepareToRead 1 (fifo q) in
  if (size1 + size2 <=? 0)%Z then (empty, q)
  else (nth (Z.to_nat start1) (buffer q) empty,
        mkLockFreeFifo (finishedRead 1 (fifo q))
                       (replace_nth (Z.to_nat start1) empty (buffer q))).

Definition clear (q : LockFreeFifo) : LockFreeFifo :=
  mkLockFreeFifo (reset (fifo q)) (buffer q).

Definition getNumItems (q : LockFreeFifo) : Z := getNumReady (fifo q).

(** The items held, oldest first: slots [validStart], [validStart + 1], ...
    modulo [bufferSize], [getNumReady] of them. *)
Definition slot (q : LockFreeFifo) (i : Z) : Z :=
  let k := (validStart (fifo q) + i)%Z in
  if (k <? bufferSize (fifo q))%Z then k else (k - bufferSize (fifo q))%Z.

Definition contents (q : LockFreeFifo) : list T :=
  map (fun i => nth (Z.to_nat (slot q (Z.of_nat i))) (buffer q) empty)
      (seq 0 (Z.to_nat (getNumItems q))).

(** The most items the queue can hold. *)
Definition capacity (q : LockFreeFifo) : Z := (bufferSize (fifo q) - 1)%Z.

(** Indices in range and a buffer of [bufferSize] slots. *)
Definition wf (q : LockFreeFifo) : Prop :=
  (1 <= bufferSize (fifo q))%Z /\
  (0 <= validStart (fifo q) < bufferSize (fifo q))%Z /\
  (0 <= validEnd (fifo q) < bufferSize (fifo q))%Z /\
  Z.of_nat (length (buffer q)) = bufferSize (fifo q).

End Fifo.

(** The list-level view of a bounded queue of [size] slots used by the
    scheduler model: at most [size - 1] items, a push to a full queue is
    refused and changes nothing. *)
Definition bounded_push {T} (size : nat) (x : T) (l : list T) : bool * list T :=
  if length l <? size - 1 then (true, l ++ [x]) else (false, l).

End LockFreeFifo.

(** ** Job.h *)
Module Job.
Import ScopeTrackedFunctions.

Inductive Priority := Normal | Urgent.

(** The enumerators' values. *)
Definition Priority_value (p : Priority) : Z :=
  match p with Normal => 0 | Urgent => 1 end.

(** A [Job] object. [addr] is its address (the [Job*] value the scheduler's
    queues hold); [action] and [callback] are labels of the
    [std::function]s ([None] when empty); [shouldAbortFn] and
    [sendUpdateFn] record whether those [std::function]s are set; the
    containers are addresses ([None] for [nullptr]). *)
Record Job := mkJob {
  addr : Z;
  action : option nat;
  callback : option nat;
  priority : Priority;
  queuePosition : Z;
  shouldAbortFn : bool;
  sendUpdateFn : bool;
  scopedCallbacks : option nat;
  scopedProgressCallbacks : option nat
}.

(** [Job(job_action, job_callback, job_priority)] at address [a]. *)
Definition make (a : Z) (job_action job_callback : option nat) (job_priority : Priority) : Job :=
  mkJob a job_action job_callback job_priority 0 false false None None.

(** [Job::operator<] *)
Definition lt (j other : Job) : bool :=
  if (Priority_value (priority j) =? Priority_value (priority other))%Z
  then (queuePosition j >? queuePosition other)%Z
  else (Priority_value (priority j) <? Priority_value (priority other))%Z.

Definition set_queuePosition (p : Z) (j : Job) : Job :=
  mkJob (addr j) (action j) (callback j) (priority j) p
        (shouldAbortFn j) (sendUpdateFn j) (scopedCallbacks j) (scopedProgressCallbacks j).

(** [Job::linkSystem]: the scheduler always passes non-empty lambdas for
    [shouldAbortFN] and [sendUpdateFN]. *)
Definition linkSystem (callbacks progressCallbacks : option nat) (j : Job) : Job :=
  mkJob (addr j) (action j) (callback j) (priority j) (queuePosition j)
        true true callbacks progressCallbacks.

(** The closure [executeUpdate] hands to [sendUpdateFn]: it captures the
    progress container and the progress value (a [float]; only the literal
    [0] matters below, so it is kept as a [Z]). *)
Definition ProgressUpdate : Type := (nat * Z)%type.

(** What [executeAction] does, in order. *)
Inductive ActionEvent :=
| SendUpdate (u : ProgressUpdate)   (** [sendUpdateFn(closure)] *)
| RunJobAction                      (** the virtual [jobAction()] *)
| RunAction (a : nat).              (** [action()] *)

(** [Job::executeUpdate(progress)] *)
Definition executeUpdate (progress : Z) (j : Job) : list ActionEvent :=
  if sendUpdateFn j then
    match scopedProgressCallbacks j with
    | Some c => [SendUpdate (c, progress)]
    | None => []
    end
  else [].

(** [Job::executeAction] *)
Definition executeAction (j : Job) : list ActionEvent :=
  executeUpdate 0 j ++ [RunJobAction] ++
  match action j with Some a => [RunAction a] | None => [] end.

(** What [executeCallback] calls, in order. *)
Inductive CallbackEvent :=
| RunJobCallback                 (** the virtual [jobCallback()] *)
| RunCallback (a : nat)          (** [callback()] *)
| RunScoped (s f : nat).         (** a scoped function [f] of scope [s] *)

(** [Job::executeCallback], against the scope registry [h] at the time it
    runs. *)
Definition executeCallback (h : Heap) (j : Job) : list CallbackEvent :=
  [RunJobCallback] ++
  match callback j with Some a => [RunCallback a] | None => [] end ++
  match scopedCallbacks j with
  | Some c => map (fun x => RunScoped (fst (fst x)) (snd (fst x))) (triggerFunctions c tt h)
  | None => []
  end.

End Job.

(** ** JobSystem.h *)
Module JobSystem.
Import ScopeTrackedFunctions Job LockFreeFifo.

(** The [std::priority_queue<Job*>] of [JobQueue], as the multiset of its
    elements; [top()] is the greatest element for the comparator, which for
    [std::priority_queue<Job*>] is [std::less<Job*>]: the order of the
    pointer values. *)
Definition less_JobPtr (a b : Job) : bool := (addr a <? addr b)%Z.

(** The greatest element for [lt] and the others. *)
Fixpoint select_max (lt : Job -> Job -> bool) (x : Job) (l : list Job) : Job * list Job :=
  match l with
  | [] => (x, [])
  | y :: l' =>
      if lt x y then let '(m, r) := select_max lt y l' in (m, x :: r)
      else let '(m, r) := select_max lt x l' in (m, y :: r)
  end.

(** [top()] then [pop()] for a heap ordered by [lt]. *)
Definition pq_pop (lt : Job -> Job -> bool) (q : list Job) : option Job * list Job :=
  match q with
  | [] => (None, [])
  | x :: l => let '(m, r) := select_max lt x l in (Some m, r)
  end.

(** [JobQueue::popJob] and [JobQueue::pushJob]. *)
Definition popJob (q : list Job) : option Job * list Job := pq_pop less_JobPtr q.
Definition pushJob_q (j : Job) (q : list Job) : list Job := q ++ [j].

(** Size of the three [LockFreeFifo]s. *)
Definition fifoSize : nat := 2048.

Record JobSystem := mkJobSystem {
  numThreads : nat;                 (** [threadPool.getNumThreads()] *)
  threadPool : list Job;            (** jobs added to the pool, not finished *)
  inputJobs : list Job;
  prioritizedJobs : list Job;
  progressCallbackFIFO : list ProgressUpdate;
  finishedJobs : list Job;
  queueCounter : Z;
  abort : bool;
  callbackMap : list (nat * nat);          (** Identifier -> container *)
  progressCallbackMap : list (nat * nat);  (** Identifier -> container *)
  registry : Heap;                  (** scopes and containers *)
  nextContainer : nat               (** address of the next [make_unique] container *)
}.

Definition create (threads : nat) : JobSystem :=
  mkJobSystem threads [] [] [] [] [] 0 false [] [] empty_heap 1000.

Definition set_inputJobs (v : list Job) (s : JobSystem) : JobSystem :=
  mkJobSystem (numThreads s) (threadPool s) v (prioritizedJobs s) (progressCallbackFIFO s)
    (finishedJobs s) (queueCounter s) (abort s) (callbackMap s) (progressCallbackMap s)
    (registry s) (nextContainer s).
Definition set_prioritizedJobs (v : list Job) (s : JobSystem) : JobSystem :=
  mkJobSystem (numThreads s) (threadPool s) (inputJobs s) v (progressCallbackFIFO s)
    (finishedJobs s) (queueCounter s) (abort s) (callbackMap s) (progressCallbackMap s)
    (registry s) (nextContainer s).
Definition set_threadPool (v : list Job) (s : JobSystem) : JobSystem :=
  mkJobSystem (numThreads s) v (inputJobs s) (prioritizedJobs s) (progressCallbackFIFO s)
    (finishedJobs s) (queueCounter s) (abort s) (callbackMap s) (progressCallbackMap s)
    (registry s) (nextContainer s).
Definition set_progressCallbackFIFO (v : list ProgressUpdate) (s : JobSystem) : JobSystem :=
  mkJobSystem (numThreads s) (threadPool s) (inputJobs s) (prioritizedJobs s) v
    (finishedJobs s) (queueCounter s) (abort s) (callbackMap s) (progressCallbackMap s)
    (registry s) (nextContainer s).
Definition set_finishedJobs (v : list Job) (s : JobSystem) : JobSystem :=
  mkJobSystem (numThreads s) (threadPool s) (inputJobs s) (prioritizedJobs s)
    (progressCallbackFIFO s) v (queueCounter s) (abort s) (callbackMap s)
    (progressCallbackMap s) (registry s) (nextContainer s).
Definition set_queueCounter (v : Z) (s : JobSystem) : JobSystem :=
  mkJobSystem (numThreads s) (threadPool s) (inputJobs s) (prioritizedJobs s)
    (progressCallbackFIFO s) (finishedJobs s) v (abort s) (callbackMap s)
    (progressCallbackMap s) (registry s) (nextContainer s).
Definition set_abort (v : bool) (s : JobSystem) : JobSystem :=
  mkJobSystem (numThreads s) (threadPool s) (inputJobs s) (prioritizedJobs s)
    (progressCallbackFIFO s) (finishedJobs s) (queueCounter s) v (callbackMap s)
    (progressCallbackMap s) (registry s) (nextContainer s).
Definition set_callbacks (cm pm : list (nat * nat)) (h : Heap) (n : nat) (s : JobSystem)
  : JobSystem :=
  mkJobSystem (numThreads s) (threadPool s) (inputJobs s) (prioritizedJobs s)
    (progressCallbackFIFO s) (finishedJobs s) (queueCounter s) (abort s) cm pm h n.

(** [std::map::find]. *)
Definition find_id (m : list (nat * nat)) (id : nat) : option nat :=
  match find (fun p => fst p =? id) m with Some p => Some (snd p) | None => None end.

(** [JobSystem::pushJob(job, callbacks, progressCallbacks)]: link, run the
    setup hook (no effect on the system), push onto [inputJobs]; when that
    [LockFreeFifo] is full the push is refused and the [unique_ptr] dies
    with the call. *)
Definition pushJob (job : Job) (callbacks progressCallbacks : option nat) (s : JobSystem)
  : JobSystem :=
  let job := linkSystem callbacks progressCallbacks job in
  set_inputJobs (snd (bounded_push fifoSize job (inputJobs s))) s.

(** [JobSystem::pushJob(job, callback_id, progress_callback_id)];
    [progress_callback_id] is [None] for the default, invalid
    [juce::Identifier()]. *)
Definition pushJob_id (job : Job) (callback_id : nat) (progress_callback_id : option nat)
  (s : JobSystem) : JobSystem :=
  let callbacks := find_id (callbackMap s) callback_id in
  let progressCallbacks :=
    match progress_callback_id with
    | Some pid => find_id (progressCallbackMap s) pid
    | None => None
    end in
  pushJob job callbacks progressCallbacks s.

(** [JobSystem::addCallback]: emplace a new container when the id is
    absent, then [add] to it. *)
Definition addCallback (callback_id scope function : nat) (s : JobSystem) : JobSystem :=
  match find_id (callbackMap s) callback_id with
  | Some c => set_callbacks (callbackMap s) (progressCallbackMap s)
                (add c scope function (registry s)) (nextContainer s) s
  | None =>
      let c := nextContainer s in
      set_callbacks (callbackMap s ++ [(callback_id, c)]) (progressCallbackMap s)
        (add c scope function (registry s)) (S c) s
  end.


(** The prioritising loop of [processJobs]: pop every input job in FIFO
    order, give it [queueCounter++] and push it on the priority queue. *)
Fixpoint prioritize (input : list Job) (counter : Z) (q : list Job) : Z * list Job :=
  match input with
  | [] => (counter, q)
  | j :: rest => prioritize rest (counter + 1)%Z (pushJob_q (set_queuePosition counter j) q)
  end.

(** [JobSystem::processJobs]: one scheduling pass. The second component is
    the job handed to the thread pool, if any; the boolean is the source's
    return value. *)
Definition processJobs_step (s : JobSystem) : bool * option Job * JobSystem :=
  let '(counter, q) := prioritize (inputJobs s) (queueCounter s) (prioritizedJobs s) in
  let s1 := set_queueCounter counter (set_prioritizedJobs q (set_inputJobs [] s)) in
  if (numThreads s <=? length (threadPool s)) || (match q with [] => true | _ => false end)
  then (true, None, s1)
  else
    match popJob q with
    | (Some jobToRun, q') =>
        let s2 := set_threadPool (threadPool s ++ [jobToRun]) (set_prioritizedJobs q' s1) in
        (false, Some jobToRun,
         match q' with [] => set_queueCounter 0 s2 | _ => s2 end)
    | (None, _) => (true, None, s1)
    end.

Definition processJobs (s : JobSystem) : bool * JobSystem :=
  let '(b, _, s') := processJobs_step s in (b, s').

(** [sendUpdateFN] of [pushJob]: push the closure on [progressCallbackFIFO]. *)
Definition sendUpdates (evs : list ActionEvent) (fifo : list ProgressUpdate)
  : list ProgressUpdate :=
  fold_left (fun f e => match e with
                        | SendUpdate u => snd (bounded_push fifoSize u f)
                        | _ => f
                        end) evs fifo.

Fixpoint remove_job (a : Z) (l : list Job) : list Job :=
  match l with
  | [] => []
  | j :: l' => if (addr j =? a)%Z then l' else j :: remove_job a l'
  end.

(** The pool job built by [processJobs] for [job], run to its end:
    [job->executeAction()]; [if (abort.load()) return;] otherwise push the
    job on [finishedJobs]. The pool then forgets the job. *)
Definition runPoolJob (job : Job) (s : JobSystem) : JobSystem :=
  let s1 := set_progressCallbackFIFO
              (sendUpdates (executeAction job) (progressCallbackFIFO s)) s in
  let s2 := set_threadPool (remove_job (addr job) (threadPool s1)) s1 in
  if abort s2 then s2
  else set_finishedJobs (snd (bounded_push fifoSize job (finishedJobs s2))) s2.

(** What [timerCallback] calls on the message thread. *)
Inductive TimerCall :=
| ProgressCall (scope function : nat) (progress : Z)
| CompletionCall (e : CallbackEvent).

(** [JobSystem::timerCallback]: run every progress closure, then
    [executeCallback] of every finished job, both in FIFO order. *)
Definition timerCallback (s : JobSystem) : list TimerCall * JobSystem :=
  let h := registry s in
  (flat_map (fun u : ProgressUpdate =>
     map (fun x => ProgressCall (fst (fst x)) (snd (fst x)) (snd x))
         (triggerFunctions (fst u) (snd u) h)) (progressCallbackFIFO s) ++
   flat_map (fun j => map CompletionCall (executeCallback h j)) (finishedJobs s),
   set_finishedJobs [] (set_progressCallbackFIFO [] s)).

(** [JobSystem::flush]: [abort.store(true)]; [threadPool.removeAllJobs(true,
    1000)] (taken to succeed within its timeout: the pool's jobs, all
    started since the scheduler never queues more than [numThreads], run to
    their end under the abort flag); [finishedJobs.clear()];
    [abort.store(false)]. *)
Definition flush (s : JobSystem) : JobSystem :=
  let s1 := set_abort true s in
  let s2 := fold_left (fun s j => runPoolJob j s) (threadPool s1) s1 in
  set_abort false (set_finishedJobs [] s2).

End JobSystem.

(** ** Queries of [ScopedFunctionContainer] *)
Module ScopeTrackedQueries.
Import ScopeTrackedFunctions.

(** [ScopedFunctionContainer::getNumFunctions]: the sizes of the
    [scopedFunctions] vectors of the container's scopes, summed (every
    function of the scope, whatever container it was added to). *)
Definition getNumFunctions (c : nat) (h : Heap) : nat :=
  fold_left (fun num s => num + length (scopedFunctions h s)) (scopes h c) 0.

(** [ScopedFunctionContainer::getNumScopes] *)
Definition getNumScopes (c : nat) (h : Heap) : nat := length (scopes h c).

End ScopeTrackedQueries.

(** ** CallbackMap.h (for [fn = void()], the only instance whose [add]
    type-checks) *)
Module CallbackMap.
Import ScopeTrackedFunctions.

(** The [std::map] from identifier to container, the scope registry, and
    the address the next [make_unique] container gets. *)
Record CallbackMap := mkCallbackMap {
  map : list (nat * nat);
  heap : Heap;
  next : nat
}.

Definition empty_map : CallbackMap := mkCallbackMap [] empty_heap 0.

(** [CallbackMap::add] ([std::map::find] is [JobSystem.find_id]) *)
Definition add (callback_id scope function : nat) (m : CallbackMap) : CallbackMap :=
  match JobSystem.find_id (map m) callback_id with
  | Some c => mkCallbackMap (map m) (ScopeTrackedFunctions.add c scope function (heap m)) (next m)
  | None =>
      mkCallbackMap (map m ++ [(callback_id, next m)])
        (ScopeTrackedFunctions.add (next m) scope function (heap m)) (S (next m))
  end.

(** [CallbackMap::trigger]: a no-op for an identifier without container. *)
Definition trigger {A} (callback_id : nat) (args : A) (m : CallbackMap) : list (nat * nat * A) :=
  match JobSystem.find_id (map m) callback_id with
  | Some c => triggerFunctions c args (heap m)
  | None => []
  end.

(** What the application does with a [CallbackMap]: add callbacks, and
    destroy scopes (which acts on the registry only). *)
Inductive cm_op :=
| CMAdd (callback_id scope function : nat)
| CMDestroy (scope : nat).

Definition cm_step (m : CallbackMap) (o : cm_op) : CallbackMap :=
  match o with
  | CMAdd id s f => add id s f m
  | CMDestroy s => mkCallbackMap (map m) (destroyScope s (heap m)) (next m)
  end.

Definition cm_run (ops : list cm_op) : CallbackMap := fold_left cm_step ops empty_map.

(** The callbacks added under [id] and not revoked by their scope's
    destruction. *)
Definition hist_id_step (id : nat) (l : list (nat * nat)) (o : cm_op) : list (nat * nat) :=
  match o with
  | CMAdd id' s f => if id' =? id then l ++ [(s, f)] else l
  | CMDestroy s => filter (fun sf => negb (fst sf =? s)) l
  end.

Definition hist_id (id : nat) (ops : list cm_op) : list (nat * nat) :=
  fold_left (hist_id_step id) ops [].

End CallbackMap.

(** ** [JobSystem::triggerCallbacks] *)
Module JobSystemTrigger.
Import ScopeTrackedFunctions Job JobSystem LockFreeFifo.

(** [JobSystem::triggerCallbacks(callbacks)]. On the message thread the
    container's functions run at once. On another thread a [Job] at
    address [a] is pushed on [finishedJobs] with an empty action and the
    callback [[callbacks]() { callbacks->triggerFunctions(); }]: its
    callback makes exactly the calls of the container's functions when it
    runs, which is the job below (no direct callback, the container as its
    only scoped container; its action, which does nothing, is never run
    since the job goes straight to [finishedJobs]). The result: the calls
    made now, and the new state. *)
Definition triggerCallbacks (onMessageThread : bool) (a : Z) (callbacks : option nat)
  (s : JobSystem) : list CallbackEvent * JobSystem :=
  match callbacks with
  | None => ([], s)
  | Some c =>
      if onMessageThread then
        (map (fun x => RunScoped (fst (fst x)) (snd (fst x))) (triggerFunctions c tt (registry s)), s)
      else
        ([], set_finishedJobs
               (snd (bounded_push fifoSize (mkJob a None None Normal 0 false false (Some c) None)
                                  (finishedJobs s))) s)
  end.

(** [JobSystem::triggerCallbacks(callback_id)] *)
Definition triggerCallbacks_id (onMessageThread : bool) (a : Z) (callback_id : nat)
  (s : JobSystem) : list CallbackEvent * JobSystem :=
  triggerCallbacks onMessageThread a (find_id (callbackMap s) callback_id) s.

End JobSystemTrigger.

(** ** A producer and a consumer of one [LockFreeFifo]: [push] each item
    in turn (the results of the [push]es), and [pop] [n] times. *)
Module FifoClient.
Import LockFreeFifo.

Section Client.
Context {T : Type} (empty : T).

Fixpoint push_all (xs : list T) (q : LockFreeFifo (T:=T)) : list bool * LockFreeFifo (T:=T) :=
  match xs with
  | [] => ([], q)
  | x :: xs' =>
      let '(b, q1) := push x q in
      let '(bs, q2) := push_all xs' q1 in (b :: bs, q2)
  end.

Fixpoint pop_n (n : nat) (q : LockFreeFifo (T:=T)) : list T * LockFreeFifo (T:=T) :=
  match n with
  | O => ([], q)
  | S n' =>
      let '(x, q1) := pop empty q in
      let '(xs, q2) := pop_n n' q1 in (x :: xs, q2)
  end.

End Client.
End FifoClient.

(** ** The application's use of a [JobSystem]'s callback channels:
    [addCallback], and the destruction of a scope. *)
Module JobSystemClient.
Import ScopeTrackedFunctions JobSystem CallbackMap.

Definition js_step (s : JobSystem) (o : cm_op) : JobSystem :=
  match o with
  | CMAdd id scope function => addCallback id scope function s
  | CMDestroy scope =>
      set_callbacks (callbackMap s) (progressCallbackMap s)
                    (destroyScope scope (registry s)) (nextContainer s) s
  end.

Definition js_run (threads : nat) (ops : list cm_op) : JobSystem :=
  fold_left js_step ops (create threads).

End JobSystemClient.

(* ================================================================== *)
(** * Proofs *)

Lemma upd_eq {X} (m : nat -> X) k v : upd m k v k = v.
Proof. unfold upd. now rewrite Nat.eqb_refl. Qed.

Lemma upd_neq {X} (m : nat -> X) k k' v : k' <> k -> upd m k v k' = m k'.
Proof. intro H. unfold upd. apply Nat.eqb_neq in H. now rewrite H. Qed.

Lemma upd_spec {X} (m : nat -> X) k v k' :
  upd m k v k' = if k' =? k then v else m k'.
Proof. reflexivity. Qed.

Module RegistryFacts.
Import ScopeTrackedFunctions.

(** Well-formedness of the two-way registration between scopes and
    containers, maintained by every operation. *)
Record Inv (h : Heap) : Prop := {
  inv_links : forall c s, In s (scopes h c) <-> In c (containers h s);
  inv_funs : forall c s, In s (scopes h c) <-> exists f, In (c, f) (scopedFunctions h s);
  inv_nodup_scopes : forall c, NoDup (scopes h c);
  inv_nodup_containers : forall s, NoDup (containers h s)
}.

Lemma Inv_empty : Inv empty_heap.
Proof.
  constructor; simpl; intros.
  - tauto.
  - split; [tauto | intros [f []]].
  - constructor.
  - constructor.
Qed.

Lemma existsb_eqb_In s l : existsb (Nat.eqb s) l = true <-> In s l.
Proof.
  rewrite existsb_exists. split.
  - intros [x [Hx E]]. apply Nat.eqb_eq in E. now subst.
  - intros H. exists s. split; [exact H | apply Nat.eqb_refl].
Qed.

Lemma filter_idem {X} (p : X -> bool) l : filter p (filter p l) = filter p l.
Proof.
  induction l as [|x l IH]; simpl; [reflexivity|].
  destruct (p x) eqn:E; simpl; [rewrite E, IH|]; auto.
Qed.

Lemma fold_remove_scopes s l h c :
  scopes (fold_left (fun h c => remove c s h) l h) c
  = if existsb (Nat.eqb c) l then filter (fun x => negb (x =? s)) (scopes h c)
    else scopes h c.
Proof.
  revert h. induction l as [|c' l IH]; intros h; simpl; [reflexivity|].
  rewrite IH. unfold remove; simpl. rewrite upd_spec.
  destruct (Nat.eqb_spec c c'); simpl.
  - subst c'. rewrite ?Nat.eqb_refl. destruct (existsb _ l).
    + apply filter_idem.
    + reflexivity.
  - reflexivity.
Qed.

Lemma fold_remove_other h s l :
  containers (fold_left (fun h c => remove c s h) l h) = containers h /\
  scopedFunctions (fold_left (fun h c => remove c s h) l h) = scopedFunctions h.
Proof.
  revert h. induction l as [|c' l IH]; intros h; simpl; [auto|].
  destruct (IH (remove c' s h)) as [E1 E2]. rewrite E1, E2. split; reflexivity.
Qed.

Lemma filter_notin s l :
  ~ In s l -> filter (fun x => negb (x =? s)) l = l.
Proof.
  induction l as [|x l IH]; simpl; intros H; [reflexivity|].
  destruct (Nat.eqb_spec x s); simpl.
  - exfalso. apply H. now left.
  - f_equal. apply IH. tauto.
Qed.

Lemma NoDup_snoc {X} (l : list X) x : NoDup l -> ~ In x l -> NoDup (l ++ [x]).
Proof.
  intros H1 H2. apply NoDup_app; [exact H1 | repeat constructor; simpl; tauto |].
  intros a Ha [E|[]]. subst. contradiction.
Qed.

Lemma destroy_scopes h s c :
  Inv h -> scopes (destroyScope s h) c = filter (fun x => negb (x =? s)) (scopes h c).
Proof.
  intros I. unfold destroyScope; simpl. rewrite fold_remove_scopes.
  destruct (existsb (Nat.eqb c) (containers h s)) eqn:E; [reflexivity|].
  symmetry. apply filter_notin. intros Hin.
  apply (inv_links _ I) in Hin. apply existsb_eqb_In in Hin. congruence.
Qed.

Lemma destroy_containers h s :
  containers (destroyScope s h) = upd (containers h) s [].
Proof.
  unfold destroyScope; simpl. now rewrite (proj1 (fold_remove_other h s _)).
Qed.

Lemma destroy_funs h s :
  scopedFunctions (destroyScope s h) = upd (scopedFunctions h) s [].
Proof.
  unfold destroyScope; simpl. now rewrite (proj2 (fold_remove_other h s _)).
Qed.

Lemma Inv_destroy h s : Inv h -> Inv (destroyScope s h).
Proof.
  intros I. constructor; intros.
  - rewrite destroy_scopes, destroy_containers, filter_In, upd_spec by exact I.
    rewrite (inv_links _ I).
    destruct (Nat.eqb_spec s0 s); simpl; firstorder congruence.
  - rewrite destroy_scopes, destroy_funs, filter_In, upd_spec by exact I.
    rewrite (inv_funs _ I).
    destruct (Nat.eqb_spec s0 s); simpl.
    + subst. simpl. split; [firstorder congruence | intros [f []]].
    + firstorder congruence.
  - rewrite destroy_scopes by exact I. apply NoDup_filter, (inv_nodup_scopes _ I).
  - rewrite destroy_containers, upd_spec.
    destruct (s0 =? s); [constructor | apply (inv_nodup_containers _ I)].
Qed.

Lemma add_registered h c s f :
  In s (scopes h c) ->
  add c s f h = mkHeap (scopes h) (containers h)
                       (upd (scopedFunctions h) s (scopedFunctions h s ++ [(c, f)])).
Proof.
  intros H. unfold add, registerContainerToScope, addFunctionToScope; simpl.
  apply existsb_eqb_In in H. now rewrite H.
Qed.

Lemma add_unregistered h c s f :
  ~ In s (scopes h c) ->
  add c s f h = mkHeap (upd (scopes h) c (scopes h c ++ [s]))
                       (upd (containers h) s (containers h s ++ [c]))
                       (upd (scopedFunctions h) s (scopedFunctions h s ++ [(c, f)])).
Proof.
  intros H. unfold add, registerContainerToScope, addFunctionToScope; simpl.
  destruct (existsb (Nat.eqb s) (scopes h c)) eqn:E; [|reflexivity].
  apply existsb_eqb_In in E. contradiction.
Qed.

Lemma Inv_add h c s f : Inv h -> Inv (add c s f h).
Proof.
  intros I. destruct (in_dec Nat.eq_dec s (scopes h c)) as [Hin|Hout].
  - rewrite add_registered by exact Hin. constructor; simpl; intros.
    + apply (inv_links _ I).
    + rewrite upd_spec, (inv_funs _ I).
      destruct (Nat.eqb_spec s0 s); [subst|tauto].
      split.
      * intros [f' Hf]. exists f'. apply in_app_iff. now left.
      * intros [f' Hf]. apply in_app_iff in Hf as [Hf|[E|[]]]; [eauto|].
        injection E as <- <-. apply (inv_funs _ I) in Hin. exact Hin.
    + apply (inv_nodup_scopes _ I).
    + apply (inv_nodup_containers _ I).
  - rewrite add_unregistered by exact Hout. constructor; simpl; intros.
    + rewrite !upd_spec.
      destruct (Nat.eqb_spec c0 c), (Nat.eqb_spec s0 s); subst;
        rewrite ?in_app_iff; simpl; rewrite ?(inv_links _ I); firstorder congruence.
    + rewrite !upd_spec.
      destruct (Nat.eqb_spec c0 c), (Nat.eqb_spec s0 s); subst;
        rewrite ?in_app_iff; simpl; rewrite ?(inv_funs _ I); try (firstorder congruence; fail).
      * split; [intros _; exists f; apply in_app_iff; right; now left | tauto].
      * split; intros [f' Hf]; exists f'; rewrite ?in_app_iff in *; simpl in *; [tauto|].
        destruct Hf as [Hf|[E|[]]]; [exact Hf | injection E; congruence].
    + rewrite upd_spec. destruct (Nat.eqb_spec c0 c); [subst|apply (inv_nodup_scopes _ I)].
      apply NoDup_snoc; [apply (inv_nodup_scopes _ I) | exact Hout].
    + rewrite upd_spec. destruct (Nat.eqb_spec s0 s); [subst|apply (inv_nodup_containers _ I)].
      apply NoDup_snoc; [apply (inv_nodup_containers _ I)|].
      rewrite <- (inv_links _ I). exact Hout.
Qed.

Lemma Inv_step h o : Inv h -> Inv (step h o).
Proof. destruct o; simpl; [apply Inv_add | apply Inv_destroy]. Qed.

Lemma Inv_run ops : Inv (run ops).
Proof.
  unfold run. generalize Inv_empty. generalize empty_heap.
  induction ops as [|o ops IH]; simpl; intros h I; [exact I|].
  apply IH, Inv_step, I.
Qed.

(** The calls made for the scoped functions of one scope. *)
Definition block {A} (h : Heap) (c : nat) (args : A) (s : nat) : list (nat * nat * A) :=
  flat_map (fun sf : ScopedFunction =>
    if fst sf =? c then [(s, snd sf, args)] else []) (scopedFunctions h s).

Lemma trigger_blocks {A} c (args : A) h :
  triggerFunctions c args h = flat_map (block h c args) (scopes h c).
Proof. reflexivity. Qed.

Lemma block_add_fun {A} h c c' s f (args : A) x :
  flat_map (fun sf : ScopedFunction => if fst sf =? c then [(x, snd sf, args)] else [])
    (upd (scopedFunctions h) s (scopedFunctions h s ++ [(c', f)]) x)
  = block h c args x ++ (if x =? s then if c' =? c then [(x, f, args)] else [] else []).
Proof.
  unfold block. rewrite upd_spec. destruct (Nat.eqb_spec x s); [subst|].
  - rewrite flat_map_app. f_equal. simpl. destruct (c' =? c); reflexivity.
  - now rewrite app_nil_r.
Qed.

Lemma flat_map_ext_in {X Y} (g1 g2 : X -> list Y) l :
  (forall x, In x l -> g1 x = g2 x) -> flat_map g1 l = flat_map g2 l.
Proof.
  induction l as [|x l IH]; simpl; intros H; [reflexivity|].
  rewrite H by now left. f_equal. apply IH. intros; apply H; now right.
Qed.

Lemma trigger_add_other {A} h c c' s f (args : A) :
  c' <> c -> triggerFunctions c args (add c' s f h) = triggerFunctions c args h.
Proof.
  intros Hne. destruct (in_dec Nat.eq_dec s (scopes h c')) as [Hin|Hout].
  - rewrite add_registered by exact Hin. unfold triggerFunctions; simpl.
    apply flat_map_ext_in. intros x _. rewrite (block_add_fun h c c' s f args x).
    apply Nat.eqb_neq in Hne. rewrite Hne. destruct (x =? s); apply app_nil_r.
  - rewrite add_unregistered by exact Hout. unfold triggerFunctions; simpl.
    rewrite upd_neq by congruence.
    apply flat_map_ext_in. intros x _. rewrite (block_add_fun h c c' s f args x).
    apply Nat.eqb_neq in Hne. rewrite Hne. destruct (x =? s); apply app_nil_r.
Qed.

Lemma block_nil_of_unregistered {A} h c s (args : A) :
  Inv h -> ~ In s (scopes h c) -> block h c args s = [].
Proof.
  intros I Hout. unfold block.
  assert (H : forall f, ~ In (c, f) (scopedFunctions h s)).
  { intros f Hf. apply Hout, (inv_funs _ I). eauto. }
  induction (scopedFunctions h s) as [|[c' f'] l IH]; simpl; [reflexivity|].
  destruct (Nat.eqb_spec c' c).
  - subst. exfalso. apply (H f'). now left.
  - apply IH. intros f Hf. apply (H f). now right.
Qed.

Lemma trigger_add_same {A} h c s f (args : A) :
  Inv h ->
  Permutation (triggerFunctions c args (add c s f h))
              (triggerFunctions c args h ++ [(s, f, args)]).
Proof.
  intros I. destruct (in_dec Nat.eq_dec s (scopes h c)) as [Hin|Hout].
  - rewrite add_registered by exact Hin. unfold triggerFunctions; simpl.
    destruct (in_split _ _ Hin) as [l1 [l2 E]]. rewrite E.
    pose proof (inv_nodup_scopes _ I c) as ND. rewrite E in ND.
    apply NoDup_remove_2 in ND. rewrite in_app_iff in ND.
    rewrite !flat_map_app. simpl.
    rewrite (block_add_fun h c c s f args s), Nat.eqb_refl, Nat.eqb_refl.
    rewrite (flat_map_ext_in _ (block h c args) l1),
            (flat_map_ext_in _ (block h c args) l2).
    + rewrite <- !app_assoc. apply Permutation_app_head.
      apply Permutation_app_head. apply Permutation_app_comm.
    + intros x Hx. rewrite (block_add_fun h c c s f args x).
      destruct (Nat.eqb_spec x s); [subst; tauto | apply app_nil_r].
    + intros x Hx. rewrite (block_add_fun h c c s f args x).
      destruct (Nat.eqb_spec x s); [subst; tauto | apply app_nil_r].
  - rewrite add_unregistered by exact Hout. unfold triggerFunctions; simpl.
    rewrite upd_eq, flat_map_app. simpl.
    rewrite (block_add_fun h c c s f args s), Nat.eqb_refl, Nat.eqb_refl.
    rewrite (block_nil_of_unregistered h c s args I Hout), app_nil_r. simpl.
    rewrite (flat_map_ext_in _ (block h c args) (scopes h c)); [reflexivity|].
    intros x Hx. rewrite (block_add_fun h c c s f args x).
    destruct (Nat.eqb_spec x s); [subst; tauto | apply app_nil_r].
Qed.

Lemma filter_block {A} h c (args : A) s x :
  filter (fun y : nat * nat * A => negb (fst (fst y) =? s)) (block h c args x)
  = if x =? s then [] else block h c args x.
Proof.
  unfold block. induction (scopedFunctions h x) as [|[c' f] l IH]; simpl.
  - destruct (x =? s); reflexivity.
  - rewrite filter_app, IH. destruct (c' =? c); simpl; [|reflexivity].
    destruct (x =? s); reflexivity.
Qed.

Lemma trigger_destroy {A} h c s (args : A) :
  Inv h ->
  triggerFunctions c args (destroyScope s h)
  = filter (fun y : nat * nat * A => negb (fst (fst y) =? s)) (triggerFunctions c args h).
Proof.
  intros I. rewrite !trigger_blocks, destroy_scopes by exact I.
  induction (scopes h c) as [|x l IH]; simpl; [reflexivity|].
  rewrite filter_app, filter_block.
  destruct (Nat.eqb_spec x s); simpl.
  - exact IH.
  - rewrite IH. f_equal. unfold block. rewrite destroy_funs, upd_neq by exact n.
    reflexivity.
Qed.

Lemma Permutation_filter' {X} (p : X -> bool) l l' :
  Permutation l l' -> Permutation (filter p l) (filter p l').
Proof.
  induction 1; simpl.
  - constructor.
  - destruct (p x); [constructor|]; assumption.
  - destruct (p x), (p y); try constructor; reflexivity.
  - eapply Permutation_trans; eassumption.
Qed.

Definition with_args {A} (args : A) (sf : nat * nat) : nat * nat * A :=
  (fst sf, snd sf, args).

(** Refinement: the calls made by [triggerFunctions c args] on the heap
    reached by a history of operations are, up to order, the callbacks
    that history registered with [c] and did not revoke. *)
Lemma trigger_hist {A} c (args : A) ops :
  Permutation (triggerFunctions c args (run ops)) (map (with_args args) (hist c ops)).
Proof.
  unfold run, hist.
  assert (G : forall h l, Inv h ->
            Permutation (triggerFunctions c args h) (map (with_args args) l) ->
            Permutation (triggerFunctions c args (fold_left step ops h))
                        (map (with_args args) (fold_left (hist_step c) ops l))).
  { induction ops as [|o ops IH]; simpl; intros h l I P; [exact P|].
    apply IH; [apply Inv_step, I|].
    destruct o as [c' s f | s]; simpl.
    - destruct (Nat.eqb_spec c' c).
      + subst c'. eapply Permutation_trans; [apply trigger_add_same, I|].
        rewrite map_app. apply Permutation_app_tail, P.
      + rewrite trigger_add_other by exact n. exact P.
    - rewrite trigger_destroy by exact I.
      replace (map (with_args args) (filter (fun sf => negb (fst sf =? s)) l))
        with (filter (fun y : nat * nat * A => negb (fst (fst y) =? s))
                     (map (with_args args) l))
        by (rewrite filter_map_swap; reflexivity).
      apply Permutation_filter', P. }
  apply G; [apply Inv_empty | constructor].
Qed.

End RegistryFacts.

Module ScopeTrackedClaims.
Import ScopeTrackedFunctions RegistryFacts.

(** A scope (5) registered with two containers (0 and 1), a second scope
    (6) with container 0; triggering container 0 calls exactly the two
    functions added to container 0. *)
Example trigger_two_containers :
  triggerFunctions 0 tt (run [Add 0 5 10; Add 1 5 11; Add 0 6 12])
  = [(5, 10, tt); (6, 12, tt)].
Proof. reflexivity. Qed.

Example trigger_after_destroy :
  triggerFunctions 0 tt (run [Add 0 5 10; Add 0 6 12; Destroy 5]) = [(6, 12, tt)].
Proof. reflexivity. Qed.

Lemma hist_avoids_scope c s ops l :
  (forall c' f, ~ In (Add c' s f) ops) ->
  (forall sf, In sf l -> fst sf <> s) ->
  forall sf, In sf (fold_left (hist_step c) ops l) -> fst sf <> s.
Proof.
  revert l. induction ops as [|o ops IH]; simpl; intros l Hops Hl; [exact Hl|].
  apply IH; [intros c' f H; apply (Hops c' f); now right|].
  destruct o as [c' s' f | s']; simpl.
  - destruct (c' =? c); [|exact Hl].
    intros sf Hsf. apply in_app_iff in Hsf as [Hsf|[E|[]]]; [now apply Hl|].
    subst sf; simpl. intros ->. apply (Hops c' f). now left.
  - intros sf Hsf. apply filter_In in Hsf as [Hsf _]. now apply Hl.
Qed.

(** C1: once the destructor of scope [s] has run, no container retains
    [s] in its scope list, and as long as no new scope is created at the
    same address, a later [triggerFunctions] on any container [c] calls
    none of the functions registered under [s]. *)
Theorem destroyed_scope_never_triggered {A} ops1 ops2 s c (args : A) :
  (forall c' f, ~ In (Add c' s f) ops2) ->
  ~ In s (scopes (run (ops1 ++ [Destroy s])) c) /\
  forall x, In x (triggerFunctions c args (run (ops1 ++ Destroy s :: ops2))) ->
            fst (fst x) <> s.
Proof.
  intros Hops. split.
  - unfold run. rewrite fold_left_app. cbn [fold_left step]. fold (run ops1).
    rewrite destroy_scopes by apply Inv_run.
    rewrite filter_In, Nat.eqb_refl. simpl. intros [_ H]. discriminate.
  - intros x Hx.
    apply (Permutation_in _ (trigger_hist c args _)) in Hx.
    apply in_map_iff in Hx as [sf [<- Hsf]]. simpl.
    unfold hist in Hsf. rewrite fold_left_app in Hsf. simpl in Hsf.
    revert sf Hsf. apply hist_avoids_scope; [exact Hops|].
    intros sf Hsf. apply filter_In in Hsf as [_ Hsf].
    intros E. rewrite E, Nat.eqb_refl in Hsf. discriminate.
Qed.

Lemma destroyed_scope_never_triggered_witness :
  (forall c' f, ~ In (Add c' 5 f) [Add 0 6 12]) /\
  forall x, In x (triggerFunctions 0 tt (run ([Add 0 5 10] ++ Destroy 5 :: [Add 0 6 12]))) ->
            fst (fst x) <> 5.
Proof.
  assert (H : forall c' f, ~ In (Add c' 5 f) [Add 0 6 12]).
  { intros c' f [E|[]]. discriminate. }
  split; [exact H|].
  exact (proj2 (destroyed_scope_never_triggered [Add 0 5 10] [Add 0 6 12] 5 0 tt H)).
Defined.

(** C6: [triggerFunctions c args] calls, each exactly once and each with
    [args], the functions registered with [c] and not revoked: its calls
    are a permutation of the history's registrations on [c] (registrations
    on other containers, even of the same scope, are not called); a
    container without registered scopes calls nothing. *)
Theorem triggerFunctions_calls_registered {A} ops c (args : A) :
  Permutation (triggerFunctions c args (run ops)) (map (with_args args) (hist c ops)) /\
  (forall x, In x (triggerFunctions c args (run ops)) -> snd x = args) /\
  (scopes (run ops) c = [] -> triggerFunctions c args (run ops) = []).
Proof.
  split; [apply trigger_hist|split].
  - intros x Hx. apply (Permutation_in _ (trigger_hist c args _)) in Hx.
    apply in_map_iff in Hx as [sf [<- _]]. reflexivity.
  - intros E. unfold triggerFunctions. now rewrite E.
Qed.

Lemma triggerFunctions_calls_registered_witness :
  scopes (run [Add 1 5 11]) 0 = [] /\ triggerFunctions 0 tt (run [Add 1 5 11]) = [].
Proof.
  split; [reflexivity|].
  apply (proj2 (proj2 (triggerFunctions_calls_registered [Add 1 5 11] 0 tt))).
  reflexivity.
Defined.

(** C7: [add] for a scope already registered with the container appends
    the function to the scope's list, leaves the container's scope list and
    the scope's container list unchanged (each holding the other exactly
    once) and makes one more call per trigger; two [add]s of the same scope
    give two calls per trigger. *)
Theorem add_registered_scope_grows_functions c s :
  (forall ops f, In s (scopes (run ops) c) ->
     let h := run ops in let h' := add c s f h in
     scopes h' c = scopes h c /\ containers h' s = containers h s /\
     scopedFunctions h' s = scopedFunctions h s ++ [(c, f)] /\
     count_occ Nat.eq_dec (scopes h' c) s = 1 /\
     count_occ Nat.eq_dec (containers h' s) c = 1) /\
  (forall ops f1 f2 A (args : A),
     Permutation (triggerFunctions c args (add c s f2 (add c s f1 (run ops))))
                 (triggerFunctions c args (run ops) ++ [(s, f1, args); (s, f2, args)])).
Proof.
  split.
  - intros ops f Hin h h'. subst h h'.
    pose proof (Inv_run ops) as I.
    rewrite add_registered by exact Hin. simpl. rewrite upd_eq.
    split; [reflexivity|split; [reflexivity|split; [reflexivity|split]]].
    + apply NoDup_count_occ'; [apply (inv_nodup_scopes _ I) | exact Hin].
    + apply NoDup_count_occ'; [apply (inv_nodup_containers _ I)|].
      apply (inv_links _ I). exact Hin.
  - intros ops f1 f2 A args.
    pose proof (Inv_run ops) as I.
    eapply Permutation_trans; [apply trigger_add_same, Inv_add, I|].
    change [(s, f1, args); (s, f2, args)] with ([(s, f1, args)] ++ [(s, f2, args)]).
    rewrite app_assoc. apply Permutation_app_tail, trigger_add_same, I.
Qed.

Lemma add_registered_scope_grows_functions_witness :
  In 5 (scopes (run [Add 0 5 10]) 0) /\
  scopedFunctions (add 0 5 11 (run [Add 0 5 10])) 5 = [(0, 10); (0, 11)] /\
  count_occ Nat.eq_dec (scopes (add 0 5 11 (run [Add 0 5 10])) 0) 5 = 1.
Proof.
  assert (H : In 5 (scopes (run [Add 0 5 10]) 0)) by (simpl; auto).
  destruct (proj1 (add_registered_scope_grows_functions 0 5) [Add 0 5 10] 11 H)
    as [_ [_ [E [C _]]]].
  split; [exact H | split; [rewrite E; reflexivity | exact C]].
Defined.

End ScopeTrackedClaims.

Module FifoFacts.
Import LockFreeFifo.

Example fifo_size4_holds_three :
  let q0 := make 0 4%Z in
  let '(b1, q1) := push 1 q0 in let '(b2, q2) := push 2 q1 in
  let '(b3, q3) := push 3 q2 in let '(b4, q4) := push 4 q3 in
  [b1; b2; b3; b4] = [true; true; true; false] /\ contents 0 q4 = [1; 2; 3]
  /\ fst (pop 0 q4) = 1.
Proof. vm_compute. auto. Qed.

Ltac zcases :=
  rewrite ?Z.geb_leb in *;
  repeat match goal with
  | |- context [Z.leb ?a ?b] => destruct (Z.leb_spec a b)
  | |- context [Z.ltb ?a ?b] => destruct (Z.ltb_spec a b)
  | H : context [Z.leb ?a ?b] |- _ => destruct (Z.leb_spec a b)
  | H : context [Z.ltb ?a ?b] |- _ => destruct (Z.ltb_spec a b)
  | |- context [Z.min ?a ?b] => destruct (Z.min_spec a b) as [[? ->]|[? ->]]
  end.

Lemma nth_replace_other {T} (l : list T) n k x d :
  k <> n -> nth k (replace_nth n x l) d = nth k l d.
Proof.
  revert n k. induction l as [|y l IH]; intros n k H; simpl; [destruct n, k; reflexivity|].
  destruct n, k; simpl; try reflexivity; [congruence|].
  apply IH. congruence.
Qed.

Lemma nth_replace_same {T} (l : list T) n x d :
  n < length l -> nth n (replace_nth n x l) d = x.
Proof.
  revert n. induction l as [|y l IH]; intros n H; simpl in *; [lia|].
  destruct n; [reflexivity|]. apply IH. lia.
Qed.

Lemma length_replace_nth {T} (l : list T) n x : length (replace_nth n x l) = length l.
Proof.
  revert n. induction l as [|y l IH]; intros n; [destruct n; reflexivity|].
  destruct n; simpl; [reflexivity|]. now rewrite IH.
Qed.

Section WithT.
Context {T : Type} (empty : T).

Lemma numItems_range (q : LockFreeFifo (T:=T)) :
  wf q -> (0 <= getNumItems q <= capacity q)%Z.
Proof.
  intros (H1 & H2 & H3 & H4). unfold getNumItems, getNumReady, capacity.
  zcases; lia.
Qed.

Lemma push_full (q : LockFreeFifo (T:=T)) x :
  wf q -> getNumItems q = capacity q -> push x q = (false, q).
Proof.
  intros (H1 & H2 & H3 & H4) E. unfold getNumItems, getNumReady, capacity in E.
  unfold push, prepareToWrite. zcases; try lia; reflexivity.
Qed.

Lemma pop_empty (q : LockFreeFifo (T:=T)) :
  getNumItems q = 0%Z -> pop empty q = (empty, q).
Proof.
  intros E. unfold getNumItems, getNumReady in E.
  unfold pop, prepareToRead. zcases; try lia; reflexivity.
Qed.

Lemma push_not_full (q : LockFreeFifo (T:=T)) x :
  wf q -> (getNumItems q < capacity q)%Z ->
  push x q = (true, mkLockFreeFifo (finishedWrite 1 (fifo q))
                                   (replace_nth (Z.to_nat (validEnd (fifo q))) x (buffer q))).
Proof.
  intros (H1 & H2 & H3 & H4) E. unfold getNumItems, getNumReady, capacity in E.
  unfold push, prepareToWrite. zcases; try lia; reflexivity.
Qed.

Lemma push_not_full_contents (q : LockFreeFifo (T:=T)) x :
  wf q -> (getNumItems q < capacity q)%Z ->
  let q' := mkLockFreeFifo (finishedWrite 1 (fifo q))
              (replace_nth (Z.to_nat (validEnd (fifo q))) x (buffer q)) in
  wf q' /\ getNumItems q' = (getNumItems q + 1)%Z /\
  contents empty q' = contents empty q ++ [x].
Proof.
  intros W E q'. pose proof (numItems_range q W) as R.
  destruct W as (H1 & H2 & H3 & H4).
  assert (N : getNumItems q' = (getNumItems q + 1)%Z).
  { unfold q', getNumItems, getNumReady, finishedWrite, capacity in *; simpl in *.
    zcases; lia. }
  split; [|split; [exact N|]].
  { unfold wf, q', finishedWrite; simpl. rewrite length_replace_nth. zcases; lia. }
  unfold contents. rewrite N, Z2Nat.inj_add, seq_app, map_app by lia.
  simpl. f_equal.
  - apply map_ext_in. intros i Hi. apply in_seq in Hi.
    assert (S : slot q' (Z.of_nat i) = slot q (Z.of_nat i)) by reflexivity.
    rewrite S. apply nth_replace_other.
    unfold slot, getNumItems, getNumReady, capacity in *. zcases; lia.
  - f_equal. rewrite Z2Nat.id by lia.
    assert (S : slot q' (getNumItems q) = validEnd (fifo q)).
    { unfold q', slot, getNumItems, getNumReady, capacity in *; simpl in *. zcases; lia. }
    rewrite S. apply nth_replace_same. lia.
Qed.

Lemma length_contents (q : LockFreeFifo (T:=T)) :
  length (contents empty q) = Z.to_nat (getNumItems q).
Proof. unfold contents. now rewrite length_map, length_seq. Qed.

(** The scheduler model uses [bounded_push] on the list of held items;
    this is what [push] does on a well-formed queue of [bufferSize] slots. *)
Lemma push_refines_bounded_push (q : LockFreeFifo (T:=T)) x :
  wf q ->
  let '(b, q') := push x q in
  (b, contents empty q') = bounded_push (Z.to_nat (bufferSize (fifo q))) x (contents empty q).
Proof.
  intros W. pose proof (numItems_range q W) as R.
  unfold bounded_push. rewrite length_contents.
  destruct (Z.ltb_spec (getNumItems q) (capacity q)) as [L|L].
  - rewrite (push_not_full q x W L).
    destruct (push_not_full_contents q x W L) as (_ & _ & C). rewrite C.
    unfold capacity in *.
    destruct (Nat.ltb_spec (Z.to_nat (getNumItems q)) (Z.to_nat (bufferSize (fifo q)) - 1));
      [reflexivity | lia].
  - assert (E : getNumItems q = capacity q) by lia.
    rewrite (push_full q x W E). unfold capacity in *.
    destruct (Nat.ltb_spec (Z.to_nat (getNumItems q)) (Z.to_nat (bufferSize (fifo q)) - 1));
      [lia | reflexivity].
Qed.

End WithT.

(** C5: on a well-formed queue, [push] on a queue at capacity (holding
    [bufferSize - 1] items, the most it can hold) returns [false] and
    leaves the queue as it was; [pop] on an empty queue returns the empty
    value and leaves the queue as it was; [push] on a queue below capacity
    returns [true] and appends the item. Both are total functions: no
    blocking, no exception. *)
Theorem LockFreeFifo_push_pop_contract {T} (empty : T) (q : LockFreeFifo (T:=T)) x :
  wf q ->
  (getNumItems q = capacity q -> push x q = (false, q)) /\
  (getNumItems q = 0%Z -> pop empty q = (empty, q)) /\
  ((getNumItems q < capacity q)%Z ->
     exists q', push x q = (true, q') /\ wf q' /\
                contents empty q' = contents empty q ++ [x]).
Proof.
  intros W. split; [|split].
  - apply push_full, W.
  - apply pop_empty.
  - intros L. eexists. split; [apply (push_not_full q x W L)|].
    destruct (push_not_full_contents empty q x W L) as (W' & _ & C). auto.
Qed.

Lemma LockFreeFifo_push_pop_contract_witness :
  wf (make 0 2%Z) /\
  exists q', push 5 (make 0 2%Z) = (true, q') /\ contents 0 q' = [5] /\
             push 6 q' = (false, q').
Proof.
  assert (W : wf (make 0 2%Z)) by (unfold wf; simpl; lia).
  split; [exact W|].
  destruct (proj2 (proj2 (LockFreeFifo_push_pop_contract 0 (make 0 2%Z) 5 W)))
    as [q' (P & W' & C)]; [vm_compute; reflexivity|].
  exists q'. split; [exact P|]. split; [rewrite C; reflexivity|].
  apply (proj1 (LockFreeFifo_push_pop_contract 0 q' 6 W')).
  assert (N : getNumItems q' = 1%Z).
  { pose proof (length_contents 0 q') as Lq. rewrite C in Lq. simpl in Lq.
    pose proof (numItems_range q' W') as R. lia. }
  rewrite N. unfold capacity. injection P as <-. reflexivity.
Defined.

End FifoFacts.

Module SchedulerFacts.
Import ScopeTrackedFunctions Job JobSystem LockFreeFifo.

(** Scheduler passes on a pool that runs each dispatched job to its end
    before the next pass: the addresses of the dispatched jobs, in order. *)
Fixpoint dispatch_order (n : nat) (s : JobSystem) : list Z :=
  match n with
  | O => []
  | S n =>
      match processJobs_step s with
      | (_, Some j, s') => addr j :: dispatch_order n (runPoolJob j s')
      | (_, None, s') => dispatch_order n s'
      end
  end.

(** Repeated [pq_pop] with comparator [lt]. *)
Fixpoint pop_all (lt : Job -> Job -> bool) (n : nat) (q : list Job) : list Z :=
  match n with
  | O => []
  | S n => match pq_pop lt q with
           | (Some j, q') => addr j :: pop_all lt n q'
           | (None, _) => []
           end
  end.

(** The scenario of the spec: three [Normal] jobs A, B, C then one [Urgent]
    job D, allocated one after the other (increasing addresses), on a pool
    of one thread. *)
Definition jobA : Job := Job.make 4096 (Some 1) (Some 11) Normal.
Definition jobB : Job := Job.make 4160 (Some 2) (Some 12) Normal.
Definition jobC : Job := Job.make 4224 (Some 3) (Some 13) Normal.
Definition jobD : Job := Job.make 4288 (Some 4) (Some 14) Urgent.

Definition scenario : JobSystem :=
  pushJob jobD None None (pushJob jobC None None (pushJob jobB None None
    (pushJob jobA None None (create 1)))).

Lemma Job_lt_spec a b :
  Job.lt a b = true <->
  (Priority_value (priority a) < Priority_value (priority b))%Z \/
  (priority a = priority b /\ (queuePosition a > queuePosition b)%Z).
Proof.
  unfold Job.lt.
  destruct (priority a), (priority b); simpl; rewrite ?Z.gtb_ltb, ?Z.ltb_lt.
  - split; [intros H; right; split; [reflexivity | lia] | intros [H|[_ H]]; lia].
  - split; [intros _; left; lia | intros _; reflexivity].
  - split; [discriminate | intros [H|[H _]]; [lia | discriminate]].
  - split; [intros H; right; split; [reflexivity | lia] | intros [H|[_ H]]; lia].
Qed.

(** C2: [Job::operator<] is the ordering the spec describes, but
    [JobQueue] is a [std::priority_queue<Job*>], ordered by [std::less<Job*>]
    on the pointer values, so [operator<] is never used: in the spec's
    scenario the dispatch order is D, C, B, A (by decreasing address), not
    D, A, B, C, which is what the queue would give with [operator<]. *)
Theorem JobQueue_orders_by_address :
  (forall a b, Job.lt a b = true <->
     (Priority_value (priority a) < Priority_value (priority b))%Z \/
     (priority a = priority b /\ (queuePosition a > queuePosition b)%Z)) /\
  dispatch_order 4 scenario = [addr jobD; addr jobC; addr jobB; addr jobA] /\
  pop_all Job.lt 4 (snd (prioritize (inputJobs scenario) 0 [])) =
    [addr jobD; addr jobA; addr jobB; addr jobC].
Proof.
  split; [apply Job_lt_spec|]. split; vm_compute; reflexivity.
Qed.

(** The jobs drained from [input], with the positions the prioritising loop
    gives them from [c] on. *)
Fixpoint assign (input : list Job) (c : Z) : list Job :=
  match input with
  | [] => []
  | j :: rest => set_queuePosition c j :: assign rest (c + 1)
  end.

Definition option_list {X} (o : option X) : list X :=
  match o with Some x => [x] | None => [] end.

Lemma prioritize_spec input c q :
  prioritize input c q = ((c + Z.of_nat (length input))%Z, q ++ assign input c).
Proof.
  revert c q. induction input as [|j input IH]; intros c q; simpl.
  - rewrite Z.add_0_r, app_nil_r. reflexivity.
  - rewrite IH. unfold pushJob_q. rewrite <- app_assoc. simpl. f_equal. lia.
Qed.

Lemma assign_positions input c :
  map queuePosition (assign input c)
  = map (fun i => (c + Z.of_nat i)%Z) (seq 0 (length input)).
Proof.
  revert c. induction input as [|j input IH]; intros c; simpl; [reflexivity|].
  rewrite IH, <- seq_shift, map_map. f_equal; [lia|].
  apply map_ext. intros i. lia.
Qed.

Lemma assign_addr input c : map addr (assign input c) = map addr input.
Proof.
  revert c. induction input as [|j input IH]; intros c; simpl; [reflexivity|].
  now rewrite IH.
Qed.

Lemma select_max_perm lt x l m r :
  select_max lt x l = (m, r) -> Permutation (x :: l) (m :: r).
Proof.
  revert x m r. induction l as [|y l IH]; intros x m r E; simpl in E.
  - injection E as <- <-. reflexivity.
  - destruct (lt x y).
    + destruct (select_max lt y l) as [m' r'] eqn:E'. injection E as <- <-.
      apply IH in E'. eapply Permutation_trans; [apply perm_skip, E' | apply perm_swap].
    + destruct (select_max lt x l) as [m' r'] eqn:E'. injection E as <- <-.
      apply IH in E'. eapply Permutation_trans; [apply perm_swap|].
      eapply Permutation_trans; [apply perm_skip, E' | apply perm_swap].
Qed.

Lemma pq_pop_perm lt q o r :
  pq_pop lt q = (o, r) -> Permutation q (option_list o ++ r).
Proof.
  destruct q as [|x l]; simpl.
  - intros E. injection E as <- <-. reflexivity.
  - destruct (select_max lt x l) as [m r'] eqn:E'. intros E. injection E as <- <-.
    apply select_max_perm in E'. exact E'.
Qed.

Lemma pq_pop_some lt q : q <> [] -> exists j r, pq_pop lt q = (Some j, r).
Proof.
  destruct q as [|x l]; [congruence|]. intros _. simpl.
  destruct (select_max lt x l) as [m r]. eauto.
Qed.

(** C8: one scheduling pass ([processJobs]) gives the jobs it drains from
    [inputJobs], in drain order, the positions [queueCounter],
    [queueCounter + 1], ... (strictly increasing), and touches the position
    of no other job: the queued jobs and the dispatched job keep theirs.
    When it dispatches a job and the priority queue is left empty, the
    counter is reset to 0; otherwise it is the old counter plus the number
    of drained jobs. *)
Theorem processJobs_queuePosition s :
  let '(_, dispatched, s') := processJobs_step s in
  let drained := assign (inputJobs s) (queueCounter s) in
  map queuePosition drained
    = map (fun i => (queueCounter s + Z.of_nat i)%Z) (seq 0 (length (inputJobs s))) /\
  map addr drained = map addr (inputJobs s) /\
  inputJobs s' = [] /\
  Permutation (prioritizedJobs s' ++ option_list dispatched) (prioritizedJobs s ++ drained) /\
  threadPool s' = threadPool s ++ option_list dispatched /\
  (dispatched <> None -> prioritizedJobs s' = [] -> queueCounter s' = 0%Z) /\
  (prioritizedJobs s' <> [] \/ dispatched = None ->
     queueCounter s' = (queueCounter s + Z.of_nat (length (inputJobs s)))%Z).
Proof.
  unfold processJobs_step. rewrite prioritize_spec.
  set (q := prioritizedJobs s ++ assign (inputJobs s) (queueCounter s)).
  assert (Common : map queuePosition (assign (inputJobs s) (queueCounter s))
    = map (fun i => (queueCounter s + Z.of_nat i)%Z) (seq 0 (length (inputJobs s))) /\
    map addr (assign (inputJobs s) (queueCounter s)) = map addr (inputJobs s))
    by (split; [apply assign_positions | apply assign_addr]).
  destruct Common as [C1 C2].
  destruct ((numThreads s <=? length (threadPool s)) ||
            match q with [] => true | _ => false end) eqn:B.
  - simpl. repeat split; auto.
    + rewrite app_nil_r. reflexivity.
    + now rewrite app_nil_r.
    + intros H. congruence.
  - assert (Hq : q <> []) by (destruct q; [rewrite orb_true_r in B; discriminate | congruence]).
    destruct (pq_pop_some less_JobPtr q Hq) as [j [r E]].
    unfold popJob. rewrite E. apply pq_pop_perm in E.
    simpl in E. destruct r as [|x r]; simpl; repeat split; auto.
    + symmetry. exact E.
    + intros [H|H]; congruence.
    + symmetry. eapply Permutation_trans; [exact E|].
      apply Permutation_cons_append.
    + intros _ H. discriminate.
Qed.

Lemma processJobs_queuePosition_witness :
  queueCounter (snd (processJobs (pushJob jobA None None (create 1)))) = 0%Z.
Proof.
  pose proof (processJobs_queuePosition (pushJob jobA None None (create 1))) as H.
  unfold processJobs.
  destruct (processJobs_step (pushJob jobA None None (create 1))) as [[b d] s'] eqn:E.
  destruct H as (_ & _ & _ & _ & _ & H6 & _).
  vm_compute in E. injection E as <- <- <-.
  apply H6; [discriminate | reflexivity].
Defined.

(** The scheduler state after two jobs were submitted to a one-thread
    system and one scheduling pass ran (B, at the higher address, is in the
    pool; A waits in the priority queue), and a third job C was then
    submitted. *)
Definition busy : JobSystem :=
  pushJob jobC None None (snd (processJobs (pushJob jobB None None
    (pushJob jobA None None (create 1))))).

Lemma runPoolJob_aborted j s :
  abort s = true ->
  threadPool (runPoolJob j s) = remove_job (addr j) (threadPool s) /\
  inputJobs (runPoolJob j s) = inputJobs s /\
  prioritizedJobs (runPoolJob j s) = prioritizedJobs s /\
  abort (runPoolJob j s) = true /\
  finishedJobs (runPoolJob j s) = finishedJobs s.
Proof. intros A. unfold runPoolJob. simpl. rewrite A. simpl. auto. Qed.

Lemma flush_pool_empty l s :
  threadPool s = l -> abort s = true ->
  let s' := fold_left (fun s j => runPoolJob j s) l s in
  threadPool s' = [] /\ inputJobs s' = inputJobs s /\
  prioritizedJobs s' = prioritizedJobs s /\ abort s' = true.
Proof.
  revert s. induction l as [|j l IH]; intros s P A; simpl; [auto|].
  destruct (runPoolJob_aborted j s A) as (R1 & R2 & R3 & R4 & _).
  destruct (IH (runPoolJob j s)) as (E1 & E2 & E3 & E4).
  - rewrite R1, P. simpl. rewrite Z.eqb_refl. reflexivity.
  - exact R4.
  - split; [exact E1|]. rewrite E2, E3, R2, R3. auto.
Qed.

(** C3: [flush] empties the thread pool and [finishedJobs] and clears the
    abort flag, but leaves [inputJobs] and [prioritizedJobs] as they were:
    on [busy], A is still queued and C still waiting in the input queue
    after [flush], and the next pass runs C, whose callback the next
    [timerCallback] calls. *)
Theorem flush_keeps_queued_jobs :
  (forall s, let s' := flush s in
     threadPool s' = [] /\ finishedJobs s' = [] /\ abort s' = false /\
     inputJobs s' = inputJobs s /\ prioritizedJobs s' = prioritizedJobs s) /\
  map addr (inputJobs (flush busy)) = [addr jobC] /\
  map addr (prioritizedJobs (flush busy)) = [addr jobA] /\
  In (CompletionCall (RunCallback 13))
     (fst (timerCallback (let s1 := flush busy in
                          match processJobs_step s1 with
                          | (_, Some j, s2) => runPoolJob j s2
                          | (_, None, s2) => s2
                          end))).
Proof.
  split.
  - intros s s'. unfold s', flush.
    set (s1 := set_abort true s).
    destruct (flush_pool_empty (threadPool s1) s1 eq_refl eq_refl) as (E1 & E2 & E3 & _).
    set (s2 := fold_left _ _ _) in *.
    cbn [set_abort set_finishedJobs threadPool finishedJobs abort inputJobs prioritizedJobs].
    rewrite E1, E2, E3. unfold s1. simpl. auto.
  - vm_compute. split; [reflexivity|]. split; [reflexivity|]. auto 20.
Qed.

(** C4: the pool job of a dispatched job pushes it on [finishedJobs] only
    when the abort flag is clear after its action; when the flag is set,
    [finishedJobs] is unchanged, and the completion calls of the next
    [timerCallback] are those of the jobs finished before: none of the
    job's [jobCallback], [callback] or scoped callbacks runs. *)
Theorem aborted_job_not_delivered s j :
  registry (runPoolJob j s) = registry s /\
  (forall j', In j' (finishedJobs (runPoolJob j s)) ->
     In j' (finishedJobs s) \/ (j' = j /\ abort s = false)) /\
  (abort s = true ->
     finishedJobs (runPoolJob j s) = finishedJobs s /\
     exists progressCalls,
       fst (timerCallback (runPoolJob j s))
       = progressCalls ++
         flat_map (fun j => map CompletionCall (executeCallback (registry s) j))
                  (finishedJobs s)).
Proof.
  unfold runPoolJob. simpl. destruct (abort s) eqn:A; simpl.
  - split; [reflexivity|]. split; [auto|].
    intros _. split; [reflexivity|]. eexists. reflexivity.
  - split; [reflexivity|]. split; [|discriminate].
    intros j' Hj. unfold bounded_push in Hj.
    destruct (length (finishedJobs s) <? fifoSize - 1); simpl in Hj; [|auto].
    apply in_app_iff in Hj as [Hj|[Hj|[]]]; auto.
Qed.

Lemma aborted_job_not_delivered_witness :
  finishedJobs (runPoolJob jobA (set_abort true (create 1))) = [].
Proof.
  exact (proj1 (proj2 (proj2 (aborted_job_not_delivered (set_abort true (create 1)) jobA))
                 eq_refl)).
Defined.

(** C9: [pushJob(job, callback_id, progress_callback_id)] with no
    container under [callback_id] links the job with a null callback
    container and creates no map entry; whatever the registry holds when
    its callback later runs (also after [addCallback] on the same id),
    [executeCallback] of that job calls [jobCallback] and its direct
    [callback] and no scoped function. *)
Theorem pushJob_unknown_channel s job callback_id progress_callback_id :
  find_id (callbackMap s) callback_id = None ->
  let s' := pushJob_id job callback_id progress_callback_id s in
  let pcb := match progress_callback_id with
             | Some pid => find_id (progressCallbackMap s) pid
             | None => None end in
  let linked := linkSystem None pcb job in
  s' = pushJob job None pcb s /\
  callbackMap s' = callbackMap s /\ progressCallbackMap s' = progressCallbackMap s /\
  (forall j, In j (inputJobs s') -> In j (inputJobs s) \/ j = linked) /\
  scopedCallbacks linked = None /\
  (forall scope f, inputJobs (addCallback callback_id scope f s') = inputJobs s') /\
  (forall h p, executeCallback h (set_queuePosition p linked)
               = RunJobCallback :: match callback job with
                                   | Some a => [RunCallback a]
                                   | None => [] end).
Proof.
  intros Hnone s' pcb linked.
  assert (E : s' = pushJob job None pcb s) by (unfold s', pushJob_id; now rewrite Hnone).
  split; [exact E|]. rewrite E.
  split; [reflexivity|]. split; [reflexivity|]. split.
  - intros j Hj. unfold pushJob, bounded_push in Hj. simpl in Hj.
    destruct (length (inputJobs s) <? _); simpl in Hj; [|auto].
    apply in_app_iff in Hj as [Hj|[Hj|[]]]; auto.
  - split; [reflexivity|]. split.
    + intros scope f. unfold addCallback.
      destruct (find_id _ callback_id); reflexivity.
    + intros h p. unfold executeCallback. simpl.
      destruct (callback job); reflexivity.
Qed.

Lemma pushJob_unknown_channel_witness :
  callbackMap (pushJob_id jobA 3 None (create 1)) = [] /\
  executeCallback empty_heap (linkSystem None None jobA) = [RunJobCallback; RunCallback 11].
Proof.
  destruct (pushJob_unknown_channel (create 1) jobA 3 None eq_refl)
    as (_ & M & _ & _ & _ & _ & X).
  split; [exact M|]. exact (X empty_heap 0%Z).
Defined.

(** C10 as stated fails: the scheduler's [sendUpdateFn] pushes onto the
    bounded [progressCallbackFIFO]; when that queue is full (2047 items) the
    update 0 of a linked job is dropped, nothing is enqueued. *)
Lemma progress_zero_dropped_when_fifo_full :
  let j := linkSystem None (Some 7) jobA in
  let s := set_threadPool [j]
             (set_progressCallbackFIFO (repeat (7, 5%Z) 2047) (create 1)) in
  sendUpdateFn j = true /\ scopedProgressCallbacks j = Some 7 /\
  progressCallbackFIFO (runPoolJob j s) = progressCallbackFIFO s.
Proof. vm_compute. auto. Qed.

(** C10, amended: a job with a dispatch function and a progress container
    hands one update (container, 0) to the dispatch function before
    [jobAction] and [action] run; the scheduler's dispatch function
    enqueues it on [progressCallbackFIFO] unless that queue is full, in
    which case it is dropped; without the dispatch function or without the
    container, [executeUpdate] emits nothing. *)
Theorem executeAction_sends_zero_first :
  (forall j c, sendUpdateFn j = true -> scopedProgressCallbacks j = Some c ->
     executeAction j = SendUpdate (c, 0%Z) :: RunJobAction ::
                       match action j with Some a => [RunAction a] | None => [] end) /\
  (forall j p, sendUpdateFn j = false \/ scopedProgressCallbacks j = None ->
     executeUpdate p j = []) /\
  (forall s j c, sendUpdateFn j = true -> scopedProgressCallbacks j = Some c ->
     progressCallbackFIFO (runPoolJob j s)
     = snd (bounded_push fifoSize (c, 0%Z) (progressCallbackFIFO s))).
Proof.
  split; [|split].
  - intros j c H1 H2. unfold executeAction, executeUpdate. rewrite H1, H2. reflexivity.
  - intros j p [H|H]; unfold executeUpdate; rewrite H; [reflexivity|].
    destruct (sendUpdateFn j); reflexivity.
  - intros s j c H1 H2. unfold runPoolJob.
    assert (A : sendUpdates (executeAction j) (progressCallbackFIFO s)
                = snd (bounded_push fifoSize (c, 0%Z) (progressCallbackFIFO s))).
    { unfold executeAction, executeUpdate, sendUpdates. rewrite H1, H2. simpl.
      destruct (action j); reflexivity. }
    destruct (abort _); simpl; exact A.
Qed.

Lemma executeAction_sends_zero_first_witness :
  executeAction (linkSystem None (Some 7) jobA)
  = [SendUpdate (7, 0%Z); RunJobAction; RunAction 1].
Proof.
  exact (proj1 executeAction_sends_zero_first (linkSystem None (Some 7) jobA) 7
           eq_refl eq_refl).
Defined.

End SchedulerFacts.

Module FifoExtra.
Import LockFreeFifo FifoClient FifoFacts.

Section WithT.
Context {T : Type} (empty : T).

Lemma pop_not_empty (q : LockFreeFifo (T:=T)) :
  wf q -> (0 < getNumItems q)%Z ->
  pop empty q = (nth (Z.to_nat (validStart (fifo q))) (buffer q) empty,
                 mkLockFreeFifo (finishedRead 1 (fifo q))
                   (replace_nth (Z.to_nat (validStart (fifo q))) empty (buffer q))).
Proof.
  intros (H1 & H2 & H3 & H4) E. unfold getNumItems, getNumReady in E.
  unfold pop, prepareToRead. zcases; try lia; reflexivity.
Qed.

Lemma pop_not_empty_contents (q : LockFreeFifo (T:=T)) :
  wf q -> (0 < getNumItems q)%Z ->
  let q' := mkLockFreeFifo (finishedRead 1 (fifo q))
              (replace_nth (Z.to_nat (validStart (fifo q))) empty (buffer q)) in
  wf q' /\ getNumItems q' = (getNumItems q - 1)%Z /\
  contents empty q = nth (Z.to_nat (validStart (fifo q))) (buffer q) empty :: contents empty q'.
Proof.
  intros W E q'. pose proof (numItems_range q W) as R.
  destruct W as (H1 & H2 & H3 & H4).
  assert (N : getNumItems q' = (getNumItems q - 1)%Z).
  { unfold q', getNumItems, getNumReady, finishedRead, capacity in *; simpl in *.
    zcases; lia. }
  split; [|split; [exact N|]].
  { unfold wf, q', finishedRead; simpl. rewrite length_replace_nth. zcases; lia. }
  unfold contents. rewrite N.
  replace (Z.to_nat (getNumItems q)) with (S (Z.to_nat (getNumItems q - 1))) by lia.
  rewrite <- cons_seq, <- seq_shift, map_cons, map_map. f_equal.
  - f_equal. unfold slot. simpl. zcases; lia.
  - apply map_ext_in. intros i Hi. apply in_seq in Hi.
    assert (S : slot q (Z.of_nat (S i)) = slot q' (Z.of_nat i)).
    { unfold q', slot, getNumItems, getNumReady, finishedRead, capacity in *; simpl in *.
      zcases; lia. }
    rewrite S. symmetry. apply nth_replace_other.
    unfold q', slot, getNumItems, getNumReady, finishedRead, capacity in *; simpl in *.
    zcases; lia.
Qed.

Lemma pop_cons (q : LockFreeFifo (T:=T)) x rest :
  wf q -> contents empty q = x :: rest ->
  exists q', pop empty q = (x, q') /\ wf q' /\ contents empty q' = rest.
Proof.
  intros W C.
  assert (E : (0 < getNumItems q)%Z).
  { pose proof (length_contents empty q) as L. rewrite C in L. simpl in L. lia. }
  destruct (pop_not_empty_contents q W E) as (W' & _ & C').
  rewrite C in C'. injection C' as Hx Hr.
  eexists. rewrite (pop_not_empty q W E). split; [rewrite <- Hx; reflexivity|]. auto.
Qed.

Lemma push_all_spec (xs : list T) (q : LockFreeFifo (T:=T)) :
  wf q -> (getNumItems q + Z.of_nat (length xs) <= capacity q)%Z ->
  exists q', push_all xs q = (repeat true (length xs), q') /\ wf q' /\
             capacity q' = capacity q /\ contents empty q' = contents empty q ++ xs.
Proof.
  revert q. induction xs as [|x xs IH]; intros q W L; simpl.
  - exists q. rewrite app_nil_r. auto.
  - cbn [length] in L. rewrite Nat2Z.inj_succ in L.
    assert (Lt : (getNumItems q < capacity q)%Z) by lia.
    rewrite (push_not_full q x W Lt).
    destruct (push_not_full_contents empty q x W Lt) as (W1 & N1 & C1).
    set (q1 := mkLockFreeFifo _ _) in *.
    assert (Cap : capacity q1 = capacity q) by reflexivity.
    destruct (IH q1 W1) as (q2 & P & W2 & Cap2 & C2); [lia|].
    rewrite P. exists q2. split; [reflexivity|]. split; [exact W2|].
    split; [congruence|]. rewrite C2, C1, <- app_assoc. reflexivity.
Qed.

Lemma pop_n_spec n (q : LockFreeFifo (T:=T)) :
  wf q -> n <= length (contents empty q) ->
  exists q', pop_n empty n q = (firstn n (contents empty q), q') /\ wf q' /\
             contents empty q' = skipn n (contents empty q).
Proof.
  revert q. induction n as [|n IH]; intros q W L; simpl.
  - exists q. auto.
  - destruct (contents empty q) as [|x rest] eqn:C; simpl in L; [lia|].
    destruct (pop_cons q x rest W C) as (q1 & P & W1 & C1).
    rewrite P. destruct (IH q1 W1) as (q2 & P2 & W2 & C2); [rewrite C1; lia|].
    rewrite P2, C1. simpl. exists q2. rewrite C1 in C2. auto.
Qed.

Lemma make_wf (size : Z) : (1 <= size)%Z -> wf (make empty size).
Proof.
  intros H. unfold wf, make. simpl. rewrite repeat_length. lia.
Qed.

Lemma make_contents (size : Z) : contents empty (make empty size) = [].
Proof. reflexivity. Qed.

End WithT.
End FifoExtra.

Module FifoExtraTheorems.
Import LockFreeFifo FifoClient FifoFacts FifoExtra.

(** X1: [pop] on a well-formed queue holding [x] then [rest] (oldest
    first) returns [x] and leaves a well-formed queue of the same capacity
    holding exactly [rest]: items leave in the order they entered. *)
Theorem pop_returns_oldest {T} (empty : T) (q : LockFreeFifo (T:=T)) x rest :
  wf q -> contents empty q = x :: rest ->
  exists q', pop empty q = (x, q') /\ wf q' /\ capacity q' = capacity q /\
             contents empty q' = rest.
Proof.
  intros W C. destruct (pop_cons empty q x rest W C) as (q' & P & W' & C').
  exists q'. split; [exact P|]. split; [exact W'|]. split; [|exact C'].
  rewrite (pop_not_empty empty q W) in P.
  - injection P as _ <-. reflexivity.
  - pose proof (length_contents empty q) as L. rewrite C in L. simpl in L. lia.
Qed.

Lemma pop_returns_oldest_witness :
  exists q', pop 0 (snd (push 7 (snd (push 5 (make 0 3%Z))))) = (5, q') /\
             contents 0 q' = [7].
Proof.
  destruct (pop_returns_oldest 0 (snd (push 7 (snd (push 5 (make 0 3%Z))))) 5 [7])
    as (q' & P & _ & _ & C).
  - unfold wf; vm_compute; repeat split; discriminate.
  - vm_compute. reflexivity.
  - exists q'. auto.
Defined.

(** X2: round trip. On a new queue of [size] slots ([size >= 1]),
    pushing up to [size - 1] items accepts every one of them, and popping
    as many times returns them in the order they were pushed and leaves
    the queue empty: a further [pop] returns the empty value and changes
    nothing. *)
Theorem fifo_round_trip {T} (empty : T) (size : Z) (xs : list T) :
  (1 <= size)%Z -> (Z.of_nat (length xs) <= size - 1)%Z ->
  let '(accepted, q1) := push_all xs (make empty size) in
  accepted = repeat true (length xs) /\
  let '(ys, q2) := pop_n empty (length xs) q1 in
  ys = xs /\ getNumItems q2 = 0%Z /\ pop empty q2 = (empty, q2).
Proof.
  intros H1 H2.
  destruct (push_all_spec empty xs (make empty size)) as (q1 & P & W1 & _ & C1).
  - apply make_wf, H1.
  - unfold capacity, getNumItems, getNumReady. simpl. lia.
  - rewrite P. split; [reflexivity|].
    rewrite make_contents in C1. simpl in C1.
    destruct (pop_n_spec empty (length xs) q1 W1) as (q2 & P2 & W2 & C2);
      [rewrite C1; lia|].
    rewrite P2, C1, firstn_all. split; [reflexivity|].
    rewrite C1, skipn_all in C2.
    assert (N : getNumItems q2 = 0%Z).
    { pose proof (length_contents empty q2) as L. rewrite C2 in L. simpl in L.
      pose proof (numItems_range q2 W2). lia. }
    split; [exact N|]. apply pop_empty, N.
Qed.

Lemma fifo_round_trip_witness :
  push_all [1; 2; 3] (make 0 4%Z) = ([true; true; true], snd (push_all [1; 2; 3] (make 0 4%Z))) /\
  fst (pop_n 0 3 (snd (push_all [1; 2; 3] (make 0 4%Z)))) = [1; 2; 3].
Proof.
  pose proof (fifo_round_trip 0 4 [1; 2; 3] ltac:(lia) ltac:(simpl; lia)) as H.
  destruct (push_all [1; 2; 3] (make 0 4%Z)) as [bs q1] eqn:E.
  destruct H as [Hb H]. subst bs. split; [reflexivity|].
  change (length [1; 2; 3]) with 3 in H |- *.
  change (snd (repeat true 3, q1)) with q1.
  destruct (pop_n 0 3 q1) as [ys q2]. destruct H as [Hy _]. exact Hy.
Defined.

(** X3: [clear] empties a well-formed queue, whatever it held, and keeps
    its capacity: afterwards [pop] returns the empty value, and any
    [capacity] items pushed are all accepted and are then exactly what the
    queue holds (the old items left in the slots never reappear). *)
Theorem clear_empties {T} (empty : T) (q : LockFreeFifo (T:=T)) :
  wf q ->
  wf (clear q) /\ capacity (clear q) = capacity q /\ contents empty (clear q) = [] /\
  pop empty (clear q) = (empty, clear q) /\
  (forall xs, (Z.of_nat (length xs) <= capacity q)%Z ->
     exists q', push_all xs (clear q) = (repeat true (length xs), q') /\
                contents empty q' = xs).
Proof.
  intros W. pose proof W as (H1 & H2 & H3 & H4).
  assert (W' : wf (clear q)) by (unfold wf, clear, reset; simpl; lia).
  assert (N : getNumItems (clear q) = 0%Z) by reflexivity.
  split; [exact W'|]. split; [reflexivity|]. split; [reflexivity|].
  split; [apply pop_empty, N|].
  intros xs L.
  destruct (push_all_spec empty xs (clear q) W') as (q' & P & _ & _ & C);
    [rewrite N; exact L|].
  exists q'. split; [exact P|]. rewrite C. reflexivity.
Qed.

Lemma clear_empties_witness :
  contents 0 (clear (snd (push_all [1; 2] (make 0 3%Z)))) = [] /\
  exists q', push_all [8] (clear (snd (push_all [1; 2] (make 0 3%Z))))
             = ([true], q') /\ contents 0 q' = [8].
Proof.
  destruct (clear_empties 0 (snd (push_all [1; 2] (make 0 3%Z))))
    as (_ & _ & C & _ & H).
  - unfold wf; vm_compute; repeat split; discriminate.
  - split; [exact C|]. apply H. vm_compute. discriminate.
Defined.

End FifoExtraTheorems.

Module RegistryExtra.
Import ScopeTrackedFunctions ScopeTrackedQueries RegistryFacts.

Lemma fold_sum {X} (g : X -> nat) l a :
  fold_left (fun num s => num + g s) l a = a + list_sum (map g l).
Proof.
  revert a. induction l as [|x l IH]; intros a; simpl; [lia|]. rewrite IH. lia.
Qed.

Lemma length_block_le {A} h c (args : A) s :
  length (block h c args s) <= length (scopedFunctions h s).
Proof.
  unfold block. induction (scopedFunctions h s) as [|[c' f] l IH]; simpl; [lia|].
  destruct (c' =? c); simpl; lia.
Qed.

Lemma length_trigger_le {A} c (args : A) h :
  length (triggerFunctions c args h) <= getNumFunctions c h.
Proof.
  rewrite trigger_blocks. unfold getNumFunctions. rewrite fold_sum. simpl.
  induction (scopes h c) as [|s l IH]; simpl; [lia|].
  rewrite length_app. pose proof (length_block_le h c args s). lia.
Qed.

Lemma In_trigger {A} c (args : A) h s f a :
  In (s, f, a) (triggerFunctions c args h) <->
  In s (scopes h c) /\ In (c, f) (scopedFunctions h s) /\ a = args.
Proof.
  unfold triggerFunctions. rewrite in_flat_map. split.
  - intros [x [Hx Hin]]. apply in_flat_map in Hin as [[c' f'] [Hsf Hif]]. simpl in Hif.
    destruct (Nat.eqb_spec c' c); [|destruct Hif].
    destruct Hif as [E|[]]. injection E as <- <- <-. subst c'. auto.
  - intros (Hs & Hf & ->). exists s. split; [exact Hs|].
    apply in_flat_map. exists (c, f). split; [exact Hf|]. simpl.
    rewrite Nat.eqb_refl. now left.
Qed.

Lemma In_scopes_hist c ops s :
  In s (scopes (run ops) c) <-> exists f, In (s, f) (hist c ops).
Proof.
  pose proof (Inv_run ops) as I.
  pose proof (trigger_hist c tt ops) as P.
  rewrite (inv_funs _ I). split.
  - intros [f Hf]. exists f.
    assert (H : In (s, f, tt) (triggerFunctions c tt (run ops))).
    { apply In_trigger. split; [apply (inv_funs _ I); eauto|]. auto. }
    apply (Permutation_in _ P) in H. apply in_map_iff in H as [[s' f'] [E Hin]].
    unfold with_args in E. simpl in E. injection E as -> ->. exact Hin.
  - intros [f Hf]. exists f.
    assert (H : In (s, f, tt) (map (with_args tt) (hist c ops)))
      by (apply in_map_iff; exists (s, f); auto).
    apply (Permutation_in _ (Permutation_sym P)) in H.
    apply In_trigger in H. tauto.
Qed.

End RegistryExtra.

Module RegistryExtraTheorems.
Import ScopeTrackedFunctions ScopeTrackedQueries RegistryFacts RegistryExtra.

(** X4: [getNumFunctions] of a container is never less than the number
    of calls its [triggerFunctions] makes, hence, after any history of adds
    and scope destructions, never less than the number of live callbacks
    added to it; but it also counts the functions its scopes hold for other
    containers: a scope with one function for container 0 and one for
    container 1 gives [getNumFunctions] 2 on container 0, which calls one. *)
Theorem getNumFunctions_counts_other_containers :
  (forall A c (args : A) h, length (triggerFunctions c args h) <= getNumFunctions c h) /\
  (forall ops c, length (hist c ops) <= getNumFunctions c (run ops)) /\
  (getNumFunctions 0 (run [Add 0 5 10; Add 1 5 11]) = 2 /\
   length (triggerFunctions 0 tt (run [Add 0 5 10; Add 1 5 11])) = 1).
Proof.
  split; [intros A; apply length_trigger_le|]. split.
  - intros ops c. rewrite <- (length_map (with_args tt)).
    rewrite <- (Permutation_length (trigger_hist c tt ops)).
    apply length_trigger_le.
  - split; reflexivity.
Qed.

(** X5: after any history of adds and scope destructions, a container's
    scope list has no duplicates and holds exactly the scopes with a live
    callback added to that container, so [getNumScopes] is the number of
    distinct such scopes. *)
Theorem getNumScopes_distinct_live_scopes ops c :
  NoDup (scopes (run ops) c) /\
  (forall s, In s (scopes (run ops) c) <-> exists f, In (s, f) (hist c ops)) /\
  getNumScopes c (run ops) = length (nodup Nat.eq_dec (map fst (hist c ops))).
Proof.
  pose proof (inv_nodup_scopes _ (Inv_run ops) c) as ND.
  split; [exact ND|]. split; [apply In_scopes_hist|].
  unfold getNumScopes. apply Permutation_length, NoDup_Permutation; [exact ND | apply NoDup_nodup|].
  intros s. rewrite nodup_In, In_scopes_hist, in_map_iff. split.
  - intros [f Hf]. exists (s, f). auto.
  - intros [[s' f] [E Hf]]. simpl in E. subst s'. eauto.
Qed.

(** X6: destroying a scope, after any history of adds and scope
    destructions, changes the calls of every container's
    [triggerFunctions] exactly by removing those made for that scope; the
    other calls are kept, in the same order. *)
Theorem destroyScope_filters_calls {A} ops s c (args : A) :
  triggerFunctions c args (destroyScope s (run ops))
  = filter (fun y : nat * nat * A => negb (fst (fst y) =? s))
           (triggerFunctions c args (run ops)).
Proof. apply trigger_destroy, Inv_run. Qed.

End RegistryExtraTheorems.

Module CallbackMapFacts.
Import ScopeTrackedFunctions RegistryFacts CallbackMap.

Lemma find_id_app m k id n :
  JobSystem.find_id (m ++ [(id, n)]) k
  = match JobSystem.find_id m k with
    | Some c => Some c
    | None => if k =? id then Some n else None
    end.
Proof.
  unfold JobSystem.find_id. induction m as [|[k' c'] m IH]; simpl.
  - rewrite Nat.eqb_sym. destruct (k =? id); reflexivity.
  - destruct (k' =? k); [reflexivity|]. exact IH.
Qed.

Lemma scopes_add_other h c c' s f :
  c' <> c -> scopes (ScopeTrackedFunctions.add c s f h) c' = scopes h c'.
Proof.
  intros H. unfold ScopeTrackedFunctions.add, registerContainerToScope, addFunctionToScope.
  simpl. destruct (existsb _ _); simpl; [reflexivity|]. apply upd_neq, H.
Qed.

(** The invariant of a [CallbackMap] reached by [cm_step]s, against the
    per-identifier histories [H]. *)
Record CMInv (m : CallbackMap) (H : nat -> list (nat * nat)) : Prop := {
  cm_heap : Inv (heap m);
  cm_lt : forall id c, JobSystem.find_id (map m) id = Some c -> c < next m;
  cm_inj : forall id1 id2 c, JobSystem.find_id (map m) id1 = Some c ->
                             JobSystem.find_id (map m) id2 = Some c -> id1 = id2;
  cm_fresh : forall c, next m <= c -> scopes (heap m) c = [];
  cm_hist : forall id, match JobSystem.find_id (map m) id with
                       | Some c => forall A (args : A),
                           Permutation (triggerFunctions c args (heap m))
                                       (List.map (with_args args) (H id))
                       | None => H id = []
                       end
}.

Lemma CMInv_empty : CMInv empty_map (fun _ => []).
Proof.
  constructor; simpl.
  - apply Inv_empty.
  - discriminate.
  - discriminate.
  - reflexivity.
  - reflexivity.
Qed.

Lemma CMInv_step m H o :
  CMInv m H -> CMInv (cm_step m o) (fun id => hist_id_step id (H id) o).
Proof.
  intros I. destruct I as [Ih Il Ii If Ht].
  destruct o as [id s f | s]; simpl.
  - unfold add. destruct (JobSystem.find_id (map m) id) as [c|] eqn:E.
    + constructor; simpl; auto.
      * apply Inv_add, Ih.
      * intros c' Hc. apply Il in E. rewrite scopes_add_other by lia. apply If. exact Hc.
      * intros k. specialize (Ht k).
        destruct (JobSystem.find_id (map m) k) as [c'|] eqn:Ek.
        -- intros A args. specialize (Ht A args).
           destruct (Nat.eqb_spec id k) as [Eik|Nik].
           ++ subst k. rewrite E in Ek. injection Ek as <-.
              eapply Permutation_trans; [apply trigger_add_same, Ih|].
              rewrite map_app. apply Permutation_app_tail, Ht.
           ++ rewrite trigger_add_other; [exact Ht|].
              intros <-. apply Nik. exact (Ii _ _ _ E Ek).
        -- destruct (Nat.eqb_spec id k); [subst; congruence | exact Ht].
    + constructor; simpl.
      * apply Inv_add, Ih.
      * intros k c Hk. rewrite find_id_app in Hk.
        destruct (JobSystem.find_id (map m) k) eqn:Ek.
        -- injection Hk as <-. apply Il in Ek. lia.
        -- destruct (k =? id); [injection Hk as <-; lia | discriminate].
      * intros k1 k2 c H1 H2. rewrite find_id_app in H1, H2.
        destruct (JobSystem.find_id (map m) k1) as [c1|] eqn:E1,
                 (JobSystem.find_id (map m) k2) as [c2|] eqn:E2.
        -- injection H1 as <-. injection H2 as <-. exact (Ii _ _ _ E1 E2).
        -- injection H1 as <-. destruct (k2 =? id); [|discriminate].
           injection H2 as <-. apply Il in E1. lia.
        -- injection H2 as <-. destruct (k1 =? id); [|discriminate].
           injection H1 as <-. apply Il in E2. lia.
        -- destruct (Nat.eqb_spec k1 id), (Nat.eqb_spec k2 id); congruence.
      * intros c Hc. rewrite scopes_add_other by lia. apply If. lia.
      * intros k. specialize (Ht k). rewrite find_id_app.
        destruct (JobSystem.find_id (map m) k) as [c'|] eqn:Ek.
        -- intros A args. specialize (Ht A args).
           destruct (Nat.eqb_spec id k); [subst; congruence|].
           rewrite trigger_add_other; [exact Ht|].
           intros Hc. apply Il in Ek. lia.
        -- destruct (Nat.eqb_spec k id), (Nat.eqb_spec id k); simpl; try congruence.
           subst k. intros A args. rewrite Ht.
           eapply Permutation_trans; [apply trigger_add_same, Ih|].
           unfold triggerFunctions at 1. rewrite (If (next m) (le_n _)). reflexivity.
  - constructor; cbn [heap map next]; auto.
    + apply Inv_destroy, Ih.
    + intros c Hc. rewrite destroy_scopes by exact Ih. rewrite (If c Hc). reflexivity.
    + intros k. specialize (Ht k).
      destruct (JobSystem.find_id (map m) k) as [c|].
      * intros A args. rewrite trigger_destroy by exact Ih.
        replace (List.map (with_args args) (filter (fun sf => negb (fst sf =? s)) (H k)))
          with (filter (fun y : nat * nat * A => negb (fst (fst y) =? s))
                       (List.map (with_args args) (H k)))
          by (rewrite filter_map_swap; reflexivity).
        apply Permutation_filter', Ht.
      * rewrite Ht. reflexivity.
Qed.

Lemma CMInv_run ops : CMInv (cm_run ops) (fun id => hist_id id ops).
Proof.
  unfold cm_run, hist_id.
  assert (G : forall m H, CMInv m H ->
            CMInv (fold_left cm_step ops m) (fun id => fold_left (hist_id_step id) ops (H id))).
  { induction ops as [|o ops IH]; simpl; intros m H I; [exact I|].
    apply (IH _ (fun id => hist_id_step id (H id) o)), CMInv_step, I. }
  apply (G _ (fun _ => [])), CMInv_empty.
Qed.

Lemma hist_id_never_added id ops :
  (forall s f, ~ In (CMAdd id s f) ops) -> hist_id id ops = [].
Proof.
  unfold hist_id.
  assert (G : forall l, l = [] -> (forall s f, ~ In (CMAdd id s f) ops) ->
                fold_left (hist_id_step id) ops l = []).
  { induction ops as [|o ops IH]; simpl; intros l El Hn; [exact El|].
    apply IH; [|intros s f Hi; apply (Hn s f); now right].
    subst l. destruct o as [id' s f | s]; simpl; [|reflexivity].
    destruct (Nat.eqb_spec id' id); [|reflexivity].
    subst. exfalso. apply (Hn s f). now left. }
  intros Hn. apply G; [reflexivity | exact Hn].
Qed.

End CallbackMapFacts.

Module CallbackMapTheorems.
Import ScopeTrackedFunctions RegistryFacts CallbackMap CallbackMapFacts.

(** X7: after any history of [CallbackMap::add]s and scope destructions,
    [trigger(id)] calls, up to order, exactly the callbacks added under
    [id] whose scope has not been destroyed since: nothing added under
    another identifier, even with the same scope. For an identifier never
    added, [trigger] calls nothing. *)
Theorem CallbackMap_trigger_live_callbacks {A} ops id (args : A) :
  Permutation (trigger id args (cm_run ops)) (List.map (with_args args) (hist_id id ops)) /\
  ((forall s f, ~ In (CMAdd id s f) ops) -> trigger id args (cm_run ops) = []).
Proof.
  assert (P : Permutation (trigger id args (cm_run ops))
                          (List.map (with_args args) (hist_id id ops))).
  { pose proof (cm_hist _ _ (CMInv_run ops) id) as Ht. unfold trigger.
    destruct (JobSystem.find_id (map (cm_run ops)) id).
    - apply Ht.
    - rewrite Ht. constructor. }
  split; [exact P|].
  intros Hn. rewrite (hist_id_never_added id ops Hn) in P.
  apply Permutation_nil, Permutation_sym, P.
Qed.

Lemma CallbackMap_trigger_live_callbacks_witness :
  trigger 2 tt (cm_run [CMAdd 1 5 10; CMAdd 1 6 11; CMDestroy 5]) = [].
Proof.
  apply (proj2 (CallbackMap_trigger_live_callbacks
                  [CMAdd 1 5 10; CMAdd 1 6 11; CMDestroy 5] 2 tt)).
  intros s f [H|[H|[H|[]]]]; discriminate.
Defined.

End CallbackMapTheorems.

Module SchedulerExtra.
Import ScopeTrackedFunctions RegistryFacts Job JobSystem LockFreeFifo SchedulerFacts.

Lemma select_max_ge x l m r :
  select_max less_JobPtr x l = (m, r) -> forall y, In y (x :: l) -> (addr y <= addr m)%Z.
Proof.
  revert x m r. induction l as [|y l IH]; intros x m r E z Hz; simpl in E.
  - injection E as <- <-. destruct Hz as [<-|[]]. lia.
  - destruct (less_JobPtr x y) eqn:L; unfold less_JobPtr in L;
      [apply Z.ltb_lt in L | apply Z.ltb_ge in L].
    + destruct (select_max less_JobPtr y l) as [m' r'] eqn:E'. injection E as <- <-.
      pose proof (IH y m' r' E') as G.
      destruct Hz as [<-|Hz]; [specialize (G y (or_introl eq_refl)); lia|].
      apply G, Hz.
    + destruct (select_max less_JobPtr x l) as [m' r'] eqn:E'. injection E as <- <-.
      pose proof (IH x m' r' E') as G.
      destruct Hz as [<-|[<-|Hz]].
      * apply G. now left.
      * specialize (G x (or_introl eq_refl)). lia.
      * apply G. now right.
Qed.

Lemma popJob_max q j r :
  popJob q = (Some j, r) ->
  Permutation q (j :: r) /\ forall y, In y q -> (addr y <= addr j)%Z.
Proof.
  unfold popJob. intros E. split; [exact (pq_pop_perm _ _ _ _ E)|].
  destruct q as [|x l]; simpl in E; [discriminate|].
  destruct (select_max less_JobPtr x l) as [m r'] eqn:E'. injection E as <- _.
  exact (select_max_ge x l m r' E').
Qed.

Lemma length_assign input c : length (assign input c) = length input.
Proof.
  revert c. induction input as [|j input IH]; intros c; simpl; [reflexivity|]. now rewrite IH.
Qed.

Lemma In_assign_addr y input c :
  In y (assign input c) -> exists j, In j input /\ addr j = addr y.
Proof.
  revert c. induction input as [|j input IH]; intros c H; simpl in H; [destruct H|].
  destruct H as [<-|H].
  - exists j. split; [now left | reflexivity].
  - destruct (IH _ H) as [j' [Hj E]]. exists j'. split; [now right | exact E].
Qed.

Lemma In_input_assign y input c :
  In y input -> exists y', In y' (assign input c) /\ addr y' = addr y.
Proof.
  revert c. induction input as [|x l IH]; intros c Hy; [destruct Hy|].
  destruct Hy as [<-|Hy].
  - exists (set_queuePosition c x). split; [now left | reflexivity].
  - destruct (IH (c + 1)%Z Hy) as [y' [Hy' E']]. exists y'. split; [now right | exact E'].
Qed.



Lemma set_inputJobs_same s : set_inputJobs (inputJobs s) s = s.
Proof. destruct s; reflexivity. Qed.

Lemma set_finishedJobs_same s : set_finishedJobs (finishedJobs s) s = s.
Proof. destruct s; reflexivity. Qed.

End SchedulerExtra.

Module SchedulerExtraTheorems.
Import ScopeTrackedFunctions RegistryFacts Job JobSystem LockFreeFifo SchedulerFacts
       SchedulerExtra JobSystemTrigger.

(** X8: [triggerCallbacks] with a null container, or by an identifier with
    no container, does nothing. Off the message thread it calls nothing at
    once; when [finishedJobs] has room, the next [timerCallback] makes the
    calls it made before, then [jobCallback] of the new job, then the
    container's functions as the registry holds them at that time (what a
    call on the message thread would have made); when [finishedJobs] is
    full, the trigger is lost. *)
Theorem triggerCallbacks_deferred_to_timer :
  (forall b a s, triggerCallbacks b a None s = ([], s)) /\
  (forall b a id s, find_id (callbackMap s) id = None -> triggerCallbacks_id b a id s = ([], s)) /\
  (forall a c s, length (finishedJobs s) < fifoSize - 1 ->
     let '(now, s') := triggerCallbacks false a (Some c) s in
     now = [] /\ registry s' = registry s /\
     fst (timerCallback s')
     = fst (timerCallback s) ++
       List.map CompletionCall (RunJobCallback :: fst (triggerCallbacks true a (Some c) s))) /\
  (forall a c s, fifoSize - 1 <= length (finishedJobs s) ->
     triggerCallbacks false a (Some c) s = ([], s)).
Proof.
  split; [reflexivity|]. split.
  { intros b a id s H. unfold triggerCallbacks_id. rewrite H. reflexivity. }
  split.
  - intros a c s L. unfold triggerCallbacks, bounded_push.
    destruct (Nat.ltb_spec (length (finishedJobs s)) (fifoSize - 1)); [|lia].
    simpl. split; [reflexivity|]. split; [reflexivity|].
    rewrite flat_map_app, app_assoc. simpl. rewrite app_nil_r. reflexivity.
  - intros a c s L. unfold triggerCallbacks, bounded_push.
    destruct (Nat.ltb_spec (length (finishedJobs s)) (fifoSize - 1)); [lia|].
    simpl. rewrite set_finishedJobs_same. reflexivity.
Qed.

Lemma triggerCallbacks_deferred_to_timer_witness :
  triggerCallbacks_id true 0 3 (create 1) = ([], create 1) /\
  fst (timerCallback (snd (triggerCallbacks false 64 (Some 1000)
                             (addCallback 3 5 10 (create 1)))))
  = [CompletionCall RunJobCallback; CompletionCall (RunScoped 5 10)].
Proof.
  destruct triggerCallbacks_deferred_to_timer as (_ & H2 & H3 & _).
  split; [apply H2; reflexivity|].
  specialize (H3 64%Z 1000 (addCallback 3 5 10 (create 1)) ltac:(simpl; lia)).
  destruct (triggerCallbacks false 64%Z (Some 1000) (addCallback 3 5 10 (create 1)))
    as [now s'] eqn:E.
  destruct H3 as (_ & _ & H3). simpl snd. rewrite H3. reflexivity.
Defined.

(** X9: [pushJob(job, callback_id)] for an identifier that has a
    container links the job with that container (when [inputJobs] has
    room, the linked job is appended to it); a callback added under the
    same identifier after the submission, while the job waits, is called
    by the job's [executeCallback], whatever position the scheduler gives
    the job. *)
Theorem pushJob_known_channel s job callback_id c scope f :
  find_id (callbackMap s) callback_id = Some c -> Inv (registry s) ->
  length (inputJobs s) < fifoSize - 1 ->
  let s1 := pushJob_id job callback_id None s in
  inputJobs s1 = inputJobs s ++ [linkSystem (Some c) None job] /\
  forall p, In (RunScoped scope f)
               (executeCallback (registry (addCallback callback_id scope f s1))
                                (set_queuePosition p (linkSystem (Some c) None job))).
Proof.
  intros Hc I L s1.
  assert (E1 : s1 = pushJob job (Some c) None s) by (unfold s1, pushJob_id; now rewrite Hc).
  split.
  - rewrite E1. unfold pushJob, bounded_push. rewrite (proj2 (Nat.ltb_lt _ _) L).
    reflexivity.
  - intros p. rewrite E1. unfold addCallback. simpl. rewrite Hc. simpl.
    unfold executeCallback. simpl. apply in_cons, in_app_iff. right.
    apply in_map_iff. exists (scope, f, tt). split; [reflexivity|].
    apply (Permutation_in _ (Permutation_sym (trigger_add_same (registry s) c scope f tt I))).
    apply in_app_iff. right. now left.
Qed.

Lemma pushJob_known_channel_witness :
  In (RunScoped 6 11)
     (executeCallback
        (registry (addCallback 3 6 11 (pushJob_id jobA 3 None (addCallback 3 5 10 (create 1)))))
        (set_queuePosition 0 (linkSystem (Some 1000) None jobA))).
Proof.
  apply (pushJob_known_channel (addCallback 3 5 10 (create 1)) jobA 3 1000 6 11).
  - reflexivity.
  - exact (Inv_add empty_heap 1000 5 10 Inv_empty).
  - simpl. lia.
Defined.

(** X10: one scheduling pass never changes the number of threads and
    returns [true] exactly when it hands no job to the pool; when the pool
    already has [numThreads] jobs or more it hands none and leaves the pool
    as it is; when the pool has room and some job is queued or waiting in
    [inputJobs], it hands one; and a pool with at most [numThreads] jobs
    still has at most [numThreads] after the pass. *)
Theorem processJobs_respects_pool_size s :
  let '(idle, dispatched, s') := processJobs_step s in
  numThreads s' = numThreads s /\
  (idle = true <-> dispatched = None) /\
  (numThreads s <= length (threadPool s) -> dispatched = None /\ threadPool s' = threadPool s) /\
  (length (threadPool s) < numThreads s -> prioritizedJobs s ++ inputJobs s <> [] ->
     dispatched <> None) /\
  (length (threadPool s) <= numThreads s -> length (threadPool s') <= numThreads s).
Proof.
  unfold processJobs_step. rewrite prioritize_spec.
  set (q := prioritizedJobs s ++ assign (inputJobs s) (queueCounter s)).
  assert (Q : prioritizedJobs s ++ inputJobs s <> [] -> q <> []).
  { intros H Hq. apply H. unfold q in Hq. apply app_eq_nil in Hq as [H1 H2].
    rewrite H1. destruct (inputJobs s); [reflexivity | discriminate]. }
  destruct ((numThreads s <=? length (threadPool s)) ||
            match q with [] => true | _ => false end) eqn:B.
  - simpl. split; [reflexivity|]. split; [tauto|]. split; [auto|]. split; [|auto].
    intros L Hne. apply Q in Hne. exfalso.
    apply orb_true_iff in B as [B|B]; [apply Nat.leb_le in B; lia|].
    destruct q; [congruence | discriminate].
  - assert (Hq : q <> []) by (destruct q; [rewrite orb_true_r in B; discriminate | congruence]).
    apply orb_false_iff in B as [B1 _]. apply Nat.leb_gt in B1.
    destruct (pq_pop_some less_JobPtr q Hq) as [j [r E]].
    unfold popJob. rewrite E.
    destruct r as [|x r]; simpl; (split; [reflexivity|]); (split; [split; discriminate|]);
      (split; [intros; lia|]); (split; [intros; discriminate|]);
      rewrite length_app; simpl; lia.
Qed.

Lemma processJobs_respects_pool_size_witness :
  snd (fst (processJobs_step (pushJob jobA None None (create 1)))) <> None.
Proof.
  pose proof (processJobs_respects_pool_size (pushJob jobA None None (create 1))) as H.
  destruct (processJobs_step (pushJob jobA None None (create 1))) as [[b d] s'].
  destruct H as (_ & _ & _ & H & _). simpl. apply H.
  - simpl. lia.
  - simpl. discriminate.
Defined.

(** X11: [JobQueue::popJob] on an empty queue returns [nullptr] and
    leaves it empty; on a non-empty queue it returns a job with the
    greatest address and leaves exactly the other jobs. *)
Theorem popJob_greatest_address q :
  popJob [] = (None, []) /\
  (q <> [] -> exists j r, popJob q = (Some j, r) /\ Permutation q (j :: r) /\
                          forall y, In y q -> (addr y <= addr j)%Z).
Proof.
  split; [reflexivity|]. intros Hq.
  destruct (pq_pop_some less_JobPtr q Hq) as [j [r E]].
  exists j, r. split; [exact E|]. apply popJob_max, E.
Qed.

Lemma popJob_greatest_address_witness :
  exists j r, popJob [jobD; jobA; jobC; jobB] = (Some j, r) /\ addr j = 4288%Z.
Proof.
  destruct (proj2 (popJob_greatest_address [jobD; jobA; jobC; jobB]) ltac:(discriminate))
    as (j & r & E & _). exists j, r. split; [exact E|].
  vm_compute in E. injection E as <- _. reflexivity.
Defined.

(** X12: a scheduling pass that hands a job to the pool hands the job
    with the greatest address among those queued and those waiting in
    [inputJobs], whatever their priorities and submission order. *)
Theorem processJobs_dispatches_greatest_address s j :
  snd (fst (processJobs_step s)) = Some j ->
  (forall y, In y (prioritizedJobs s) -> (addr y <= addr j)%Z) /\
  (forall y, In y (inputJobs s) -> (addr y <= addr j)%Z).
Proof.
  unfold processJobs_step. rewrite prioritize_spec.
  set (q := prioritizedJobs s ++ assign (inputJobs s) (queueCounter s)).
  destruct ((numThreads s <=? length (threadPool s)) ||
            match q with [] => true | _ => false end); [discriminate|].
  destruct (popJob q) as [[m|] r] eqn:E; [|discriminate].
  intros Hj. assert (Em : m = j) by (destruct r; simpl in Hj; congruence). subst m.
  destruct (popJob_max q j r E) as [_ G]. split.
  - intros y Hy. apply G. unfold q. apply in_app_iff. now left.
  - intros y Hy. destruct (In_input_assign y (inputJobs s) (queueCounter s) Hy) as [y' [Hy' E']].
    rewrite <- E'. apply G. unfold q. apply in_app_iff. now right.
Qed.

Lemma processJobs_dispatches_greatest_address_witness :
  (addr (linkSystem None None jobA) <= 4288)%Z.
Proof.
  apply (proj2 (processJobs_dispatches_greatest_address scenario
                  (set_queuePosition 3 (linkSystem None None jobD))
                  ltac:(vm_compute; reflexivity))).
  vm_compute. left. reflexivity.
Defined.


(** X14: [Job::operator<] is a strict weak order, as the standard
    containers require of a comparator: irreflexive, transitive, and two
    jobs are unordered only when they have the same priority and the same
    queue position. *)
Theorem Job_lt_strict_weak_order :
  (forall a, Job.lt a a = false) /\
  (forall a b c, Job.lt a b = true -> Job.lt b c = true -> Job.lt a c = true) /\
  (forall a b, Job.lt a b = false -> Job.lt b a = false ->
     priority a = priority b /\ queuePosition a = queuePosition b).
Proof.
  split; [|split].
  - intros a. unfold Job.lt. rewrite Z.eqb_refl, Z.gtb_ltb. apply Z.ltb_irrefl.
  - intros a b c H1 H2. apply Job_lt_spec in H1, H2. apply Job_lt_spec.
    destruct (priority a), (priority b), (priority c); simpl in *;
      destruct H1 as [H1|[H1 H1']]; destruct H2 as [H2|[H2 H2']];
      try discriminate; try lia; right; split; auto; lia.
  - intros a b H1 H2. unfold Job.lt in H1, H2.
    destruct (priority a), (priority b); simpl in *; try discriminate;
      rewrite ?Z.gtb_ltb in *; apply Z.ltb_ge in H1, H2; split; auto; lia.
Qed.

Lemma Job_lt_strict_weak_order_witness :
  Job.lt (set_queuePosition 2 jobA) (set_queuePosition 0 jobD) = true.
Proof.
  apply (proj1 (proj2 Job_lt_strict_weak_order) _ (set_queuePosition 1 jobB)); reflexivity.
Defined.

(** X15: [pushJob] on a full [inputJobs] (2047 jobs waiting) drops the
    job: the system is unchanged and the job will never run nor be called
    back; otherwise the linked job is appended to [inputJobs]. *)
Theorem pushJob_full_input_drops s job callbacks progressCallbacks :
  (fifoSize - 1 <= length (inputJobs s) -> pushJob job callbacks progressCallbacks s = s) /\
  (length (inputJobs s) < fifoSize - 1 ->
     inputJobs (pushJob job callbacks progressCallbacks s)
     = inputJobs s ++ [linkSystem callbacks progressCallbacks job]).
Proof.
  unfold pushJob, bounded_push. split; intros L.
  - destruct (Nat.ltb_spec (length (inputJobs s)) (fifoSize - 1)); [lia|].
    apply set_inputJobs_same.
  - destruct (Nat.ltb_spec (length (inputJobs s)) (fifoSize - 1)); [reflexivity | lia].
Qed.

Lemma pushJob_full_input_drops_witness :
  pushJob jobB None None (set_inputJobs (repeat jobA 2047) (create 1))
  = set_inputJobs (repeat jobA 2047) (create 1).
Proof.
  apply (proj1 (pushJob_full_input_drops (set_inputJobs (repeat jobA 2047) (create 1))
                  jobB None None)).
  apply Nat.leb_le. vm_compute. reflexivity.
Defined.

End SchedulerExtraTheorems.

Module ChannelFacts.
Import ScopeTrackedFunctions RegistryFacts Job JobSystem CallbackMap CallbackMapFacts
       JobSystemClient.

(** The [JobSystem]'s callback channels, as a [CallbackMap]. *)
Definition toCM (s : JobSystem) : CallbackMap :=
  mkCallbackMap (callbackMap s) (registry s) (nextContainer s).

Lemma js_step_cm s o : toCM (js_step s o) = cm_step (toCM s) o.
Proof.
  destruct o as [id sc f | sc]; simpl; [|reflexivity].
  unfold addCallback, CallbackMap.add, toCM. simpl.
  destruct (find_id (callbackMap s) id); reflexivity.
Qed.

Lemma js_fold_cm ops s : toCM (fold_left js_step ops s) = fold_left cm_step ops (toCM s).
Proof.
  revert s. induction ops as [|o ops IH]; intros s; simpl; [reflexivity|].
  rewrite IH, js_step_cm. reflexivity.
Qed.

Lemma CMInv_fold ops m H :
  CMInv m H -> CMInv (fold_left cm_step ops m) (fun id => fold_left (hist_id_step id) ops (H id)).
Proof.
  revert m H. induction ops as [|o ops IH]; simpl; intros m H I; [exact I|].
  apply (IH _ (fun id => hist_id_step id (H id) o)), CMInv_step, I.
Qed.

Lemma CMInv_create threads : CMInv (toCM (create threads)) (fun _ => []).
Proof.
  constructor; simpl.
  - apply Inv_empty.
  - discriminate.
  - discriminate.
  - reflexivity.
  - reflexivity.
Qed.

End ChannelFacts.

Module ChannelTheorems.
Import ScopeTrackedFunctions RegistryFacts Job JobSystem CallbackMap CallbackMapFacts
       JobSystemClient JobSystemTrigger ChannelFacts.

(** X16: on a [JobSystem] after any history of [addCallback]s and scope
    destructions, [triggerCallbacks(callback_id)] on the message thread
    changes nothing in the system and calls, up to order, exactly the
    callbacks added under that identifier whose scope still exists; none
    for an identifier never used. *)
Theorem JobSystem_triggerCallbacks_live_callbacks threads ops callback_id a :
  let s := js_run threads ops in
  snd (triggerCallbacks_id true a callback_id s) = s /\
  Permutation (fst (triggerCallbacks_id true a callback_id s))
              (List.map (fun sf => RunScoped (fst sf) (snd sf)) (hist_id callback_id ops)).
Proof.
  intros s.
  pose proof (cm_hist _ _ (CMInv_fold ops _ _ (CMInv_create threads)) callback_id) as Ht.
  unfold js_run in s. rewrite <- js_fold_cm in Ht. fold s in Ht.
  unfold triggerCallbacks_id, triggerCallbacks. unfold toCM in Ht. simpl in Ht.
  destruct (find_id (callbackMap s) callback_id) as [c|].
  - split; [reflexivity|]. simpl.
    specialize (Ht unit tt). apply (Permutation_map (fun x => RunScoped (fst (fst x)) (snd (fst x))))
      in Ht. rewrite map_map in Ht. exact Ht.
  - split; [reflexivity|]. unfold hist_id. rewrite Ht. constructor.
Qed.

End ChannelTheorems.

Module PipelineTheorems.
Import ScopeTrackedFunctions Job JobSystem LockFreeFifo.

(** X17: end to end. A job pushed on an idle system (nothing waiting,
    queued or running, at least one thread, abort flag clear, room in
    [finishedJobs]) is handed to the pool by the next scheduling pass, with
    the current [queueCounter] as position; once it has run, the next
    [timerCallback] ends with its [executeCallback] calls. *)
Theorem idle_system_runs_and_delivers s job callbacks :
  inputJobs s = [] -> prioritizedJobs s = [] -> threadPool s = [] ->
  0 < numThreads s -> abort s = false -> length (finishedJobs s) < fifoSize - 1 ->
  match processJobs_step (pushJob job callbacks None s) with
  | (false, Some j, s2) =>
      j = set_queuePosition (queueCounter s) (linkSystem callbacks None job) /\
      exists before, fst (timerCallback (runPoolJob j s2))
                     = before ++ List.map CompletionCall (executeCallback (registry s) j)
  | _ => False
  end.
Proof.
  intros Hi Hp Ht Hn Ha Hf.
  unfold pushJob, bounded_push. rewrite Hi. simpl (length []).
  replace (0 <? fifoSize - 1) with true by reflexivity.
  unfold processJobs_step. cbn [snd inputJobs set_inputJobs prioritize prioritizedJobs].
  rewrite Hp. cbn [pushJob_q app threadPool numThreads set_inputJobs]. rewrite Ht.
  simpl (length []).
  replace (numThreads s <=? 0) with false by (symmetry; apply Nat.leb_gt; exact Hn).
  simpl. split; [reflexivity|].
  unfold runPoolJob. cbn [abort set_threadPool set_queueCounter set_prioritizedJobs
                          set_inputJobs set_progressCallbackFIFO].
  rewrite Ha. cbn [finishedJobs set_threadPool set_queueCounter set_prioritizedJobs
                   set_inputJobs set_progressCallbackFIFO].
  unfold bounded_push. rewrite (proj2 (Nat.ltb_lt _ _) Hf).
  unfold timerCallback. simpl. rewrite flat_map_app. simpl. rewrite app_nil_r, app_assoc.
  eexists. reflexivity.
Qed.

Lemma idle_system_runs_and_delivers_witness :
  match processJobs_step (pushJob SchedulerFacts.jobA (Some 1000) None
                            (addCallback 3 5 10 (create 2))) with
  | (false, Some j, s2) => In (CompletionCall (RunScoped 5 10)) (fst (timerCallback (runPoolJob j s2)))
  | _ => False
  end.
Proof.
  pose proof (idle_system_runs_and_delivers (addCallback 3 5 10 (create 2))
                SchedulerFacts.jobA (Some 1000) eq_refl eq_refl eq_refl
                ltac:(simpl; lia) eq_refl ltac:(simpl; lia)) as H.
  destruct (processJobs_step _) as [[[|] [j|]] s2]; try contradiction.
  destruct H as [Ej [before E]]. rewrite E. apply in_app_iff. right.
  subst j. vm_compute. auto.
Defined.

End PipelineTheorems.

Module RemoveFacts.
Import ScopeTrackedFunctions RegistryFacts.

Lemma flat_map_filter_block {A} h c (args : A) s l :
  filter (fun y : nat * nat * A => negb (fst (fst y) =? s)) (flat_map (block h c args) l)
  = flat_map (block h c args) (filter (fun x => negb (x =? s)) l).
Proof.
  induction l as [|x l IH]; simpl; [reflexivity|].
  rewrite filter_app, filter_block, IH.
  destruct (Nat.eqb_spec x s); reflexivity.
Qed.

Lemma flat_map_split_out {X Y} (f : X -> list Y) (l : list X) (s : X) (dec : forall a b : X, {a = b} + {a <> b}) :
  NoDup l ->
  Permutation (flat_map f l)
              (flat_map f (filter (fun x => if dec x s then false else true) l) ++
               (if in_dec dec s l then f s else [])).
Proof.
  induction l as [|x l IH]; intros ND; simpl;
    [destruct (in_dec dec s []) as [[]|_]; constructor|].
  inversion ND as [|? ? Hx ND']; subst.
  destruct (dec x s) as [->|Ne]; simpl.
  - rewrite (filter_ext_in _ (fun _ => true)).
    + rewrite filter_true.
      destruct (in_dec dec s l); [contradiction|].
      apply Permutation_app_comm.
    + intros a Ha. destruct (dec a s); [subst; contradiction | reflexivity].
  - rewrite <- app_assoc. apply Permutation_app_head.
    destruct (dec s x); [congruence|]. destruct (in_dec dec s l); apply IH, ND'.
Qed.

End RemoveFacts.

Module RemoveTheorems.
Import ScopeTrackedFunctions RegistryFacts RemoveFacts.

(** X18: [remove(scope)] on a container drops, from its
    [triggerFunctions], exactly the calls for that scope (the others keep
    their order); but the scope keeps its functions, so a later
    [add(scope, g)] on the same container brings back every function the
    scope had for it, beside [g]. *)
Theorem remove_then_add_restores {A} h c s g (args : A) :
  triggerFunctions c args (remove c s h)
  = filter (fun y : nat * nat * A => negb (fst (fst y) =? s)) (triggerFunctions c args h) /\
  (Inv h ->
   Permutation (triggerFunctions c args (add c s g (remove c s h)))
               (triggerFunctions c args h ++ [(s, g, args)])).
Proof.
  assert (R : triggerFunctions c args (remove c s h)
              = filter (fun y : nat * nat * A => negb (fst (fst y) =? s))
                       (triggerFunctions c args h)).
  { rewrite !trigger_blocks, flat_map_filter_block. unfold remove. simpl.
    rewrite upd_eq. reflexivity. }
  split; [exact R|]. intros I.
  set (h1 := remove c s h).
  assert (Hout : ~ In s (scopes h1 c)).
  { unfold h1, remove. simpl. rewrite upd_eq. intros Hin.
    apply filter_In in Hin as [_ E]. rewrite Nat.eqb_refl in E. discriminate. }
  rewrite add_unregistered by exact Hout. unfold triggerFunctions. simpl.
  rewrite !upd_eq, flat_map_app. simpl.
  rewrite (block_add_fun h c c s g args s), Nat.eqb_refl, Nat.eqb_refl, app_nil_r.
  rewrite (flat_map_ext_in _ (block h c args) (filter (fun x => negb (x =? s)) (scopes h c))).
  2:{ intros x Hx. rewrite (block_add_fun h c c s g args x).
      apply filter_In in Hx as [_ Hx].
      destruct (Nat.eqb_spec x s); [discriminate | apply app_nil_r]. }
  rewrite app_assoc. apply Permutation_app_tail.
  eapply Permutation_trans;
    [|apply Permutation_sym, (flat_map_split_out _ _ s Nat.eq_dec (inv_nodup_scopes _ I c))].
  rewrite (filter_ext (fun x => negb (x =? s)) (fun x => if Nat.eq_dec x s then false else true)).
  2:{ intros x. destruct (Nat.eqb_spec x s), (Nat.eq_dec x s); simpl; congruence. }
  apply Permutation_app_head.
  destruct (in_dec Nat.eq_dec s (scopes h c)) as [Hin|Hn]; [reflexivity|].
  rewrite (block_nil_of_unregistered h c s args I Hn). reflexivity.
Qed.

Lemma remove_then_add_restores_witness :
  Permutation (triggerFunctions 0 tt (add 0 5 12 (remove 0 5 (run [Add 0 5 10; Add 0 6 11]))))
              [(5, 10, tt); (6, 11, tt); (5, 12, tt)].
Proof.
  exact (proj2 (remove_then_add_restores (run [Add 0 5 10; Add 0 6 11]) 0 5 12 tt)
           (Inv_run [Add 0 5 10; Add 0 6 11])).
Defined.

End RemoveTheorems.
